(** * migrate_assets.py: flat image directory to Xcode asset catalog

    A shallow embedding of [migrate_assets.py] and the verification of its
    specification.

    Modelling conventions.
    - A file name is a byte string ([string]); ASCII case folding, the search
      for the last dot and code point ordering agree with Python's [str]
      operations on UTF-8 encoded names.
    - The file system is a finite map from resolved absolute paths (the list
      of components below the root) to nodes.  There are no symbolic links,
      so [Path.resolve] is the identity on such paths, and [p / name] appends
      one component: every name joined by the program is built from a
      directory entry and holds no separator.
    - Every system call may fail for reasons outside the tree (permissions,
      full disk): an oracle [faulty] tells which calls raise [OSError].  A
      call that raises leaves the tree as it was.
    - A file written by [json.dump] is represented by the value dumped;
      [json.dump] is deterministic, so equal values are equal bytes.
    - Messages printed on standard output are not modelled. *)

From Stdlib Require Import ZArith Ascii.
From stdpp Require Import gmap strings list fin_maps sorting.

(** ** Python strings *)

Module PyStr.

(** [c.lower()] on one ASCII character. *)
Definition lower_ascii (c : ascii) : ascii :=
  let n := N_of_ascii c in
  if ((65 <=? n) && (n <=? 90))%N then ascii_of_N (n + 32) else c.

(** [s.lower()] *)
Fixpoint lower (s : string) : string :=
  match s with
  | EmptyString => EmptyString
  | String c s' => String (lower_ascii c) (lower s')
  end.

(** [s.rfind(".")], [None] standing for [-1]. *)
Fixpoint rfind_dot (s : string) : option nat :=
  match s with
  | EmptyString => None
  | String c s' =>
      match rfind_dot s' with
      | Some i => Some (S i)
      | None => if Ascii.eqb c "." then Some 0 else None
      end
  end.

(** [s.endswith(suf)] *)
Fixpoint endswith (s suf : string) : bool :=
  String.eqb s suf ||
  match s with
  | EmptyString => false
  | String _ s' => endswith s' suf
  end.

(** [s[:-k]] for [0 < k] *)
Definition drop_end (k : nat) (s : string) : string :=
  String.substring 0 (String.length s - k) s.

(** [s[0]] as a one-character string.  Python raises [IndexError] on the
    empty string; the program only indexes the scales ["2x"] and ["3x"]. *)
Definition first_char (s : string) : string :=
  match s with
  | EmptyString => EmptyString
  | String c _ => String c EmptyString
  end.

End PyStr.

(** ** pathlib: the suffix and the stem of a file name *)

Module Pathlib.

(** [PurePath.suffix]: the part of the name from its last dot, when that
    dot is neither the first nor the last character. *)
Definition suffix (name : string) : string :=
  match PyStr.rfind_dot name with
  | Some i =>
      if (0 <? i) && (i <? String.length name - 1)
      then String.substring i (String.length name - i) name
      else ""
  | None => ""
  end.

(** [PurePath.stem]: the name without its suffix. *)
Definition stem (name : string) : string :=
  match PyStr.rfind_dot name with
  | Some i =>
      if (0 <? i) && (i <? String.length name - 1)
      then String.substring 0 i name
      else name
  | None => name
  end.

(** A path object as pathlib keeps it: whether it is anchored at the
    root, and its components. *)
Record PurePath := MkPath { anchored : bool; parts : list string }.

(** Splitting a string at every ["/"]. *)
Fixpoint split_sep (cur : string) (s : string) : list string :=
  match s with
  | EmptyString => [String.rev cur]
  | String c s' =>
      if Ascii.eqb c "/" then String.rev cur :: split_sep "" s'
      else split_sep (String c cur) s'
  end.

Definition starts_with_sep (s : string) : bool :=
  match s with
  | String c _ => Ascii.eqb c "/"
  | EmptyString => false
  end.

(** [Path(s)]: empty components and ["."] components are dropped, so
    [Path("")] is the path [.] with no component. *)
Definition Path (s : string) : PurePath :=
  MkPath (starts_with_sep s)
         (filter (λ c, c ≠ "" ∧ c ≠ ".") (split_sep "" s)).

(** [bool(p)]: pathlib paths define neither [__bool__] nor [__len__], so
    every path object is true, [Path("")] included. *)
Definition truthy (p : PurePath) : bool := true.

(** [a or b] on path objects. *)
Definition por (a b : PurePath) : PurePath := if truthy a then a else b.

(** The resolved absolute path [p] as a path object. *)
Definition of_resolved (p : list string) : PurePath := MkPath true p.



End Pathlib.

(** ** The file system *)

(** A JSON value; an object keeps its keys in insertion order, as a Python
    [dict] does. *)
#[local] Unset Elimination Schemes.
Inductive json :=
| JString (s : string)
| JNumber (n : Z)
| JArray (l : list json)
| JObject (fields : list (string * json)).
#[local] Set Elimination Schemes.

(** What a regular file holds: bytes, or a document written by [json.dump]. *)
Inductive content :=
| Blob (bytes : string)
| Document (j : json).

Inductive node :=
| Dir
| File (c : content).

(** Resolved absolute paths; [[]] is the root ["/"]. *)
Abbreviation path := (list string).
Abbreviation fs := (gmap (list string) node).

(** The root always exists and is a directory. *)
Definition lookup_node (m : fs) (p : path) : option node :=
  match p with
  | [] => Some Dir
  | _ => m !! p
  end.

(** [p.exists()] *)
Definition path_exists (m : fs) (p : path) : bool :=
  match lookup_node m p with
  | Some _ => true
  | None => false
  end.

(** [p.is_dir()] *)
Definition is_dir (m : fs) (p : path) : bool :=
  match lookup_node m p with
  | Some Dir => true
  | _ => false
  end.

(** [p.parent] *)
Definition parent (p : path) : path := take (length p - 1) p.

(** [os.path.basename] *)
Definition basename (p : path) : string := default "" (last p).

(** [str(p)] for a resolved path. *)
Definition path_str (p : path) : string :=
  match p with
  | [] => "/"
  | _ => foldr (λ c acc, "/" +:+ c +:+ acc) "" p
  end.

(** [os.path.commonpath] on resolved paths: the longest sequence of
    components they all start with. *)
Definition commonpath (p q : path) : path := (max_prefix p q).2.

(** Every entry but the root lies in a directory. *)
Definition wf (m : fs) : Prop :=
  ∀ p n, is_Some (m !! (p ++ [n])) → lookup_node m p = Some Dir.

(** The system calls the program makes, as the oracle sees them. *)
Inductive syscall :=
| SysRmtree (p : path)
| SysMakedirs (p : path)
| SysOpenW (p : path)
| SysListdir (p : path)
| SysCopy (src dst : path).

(** The keys left after the tree at [d] is removed. *)
Definition outside (d : path) (m : fs) : fs :=
  filter (λ kv, ¬ d `prefix_of` kv.1) m.

(** The name of [k] when [k] is an entry of the directory [d]. *)
Fixpoint child_name (d k : path) : option string :=
  match d, k with
  | [], [n] => Some n
  | x :: d', y :: k' => if decide (x = y) then child_name d' k' else None
  | _, _ => None
  end.

Section Syscalls.
Context (faulty : syscall → bool).

(** [shutil.rmtree(p)]: [p] must be a directory. *)
Definition rmtree (p : path) (m : fs) : option fs :=
  if faulty (SysRmtree p) then None
  else match lookup_node m p with
       | Some Dir => Some (outside p m)
       | _ => None
       end.

(** [os.makedirs(p, exist_ok=True)], walking down from the directory
    [pre]: an existing directory is kept, a missing one is created in its
    parent, a regular file on the way raises. *)
Fixpoint makedirs_from (pre rest : path) (m : fs) : option fs :=
  match rest with
  | [] => Some m
  | n :: rest' =>
      let q := pre ++ [n] in
      match lookup_node m q with
      | Some Dir => makedirs_from q rest' m
      | Some (File _) => None
      | None =>
          if is_dir m pre then makedirs_from q rest' (<[q := Dir]> m)
          else None
      end
  end.

Definition makedirs (p : path) (m : fs) : option fs :=
  if faulty (SysMakedirs p) then None else makedirs_from [] p m.

(** [with open(p, "w") as f: json.dump(j, f, indent=2)] *)
Definition write_json (p : path) (j : json) (m : fs) : option fs :=
  if faulty (SysOpenW p) then None
  else match p with
       | [] => None
       | _ =>
           if is_dir m (parent p) && negb (is_dir m p)
           then Some (<[p := File (Document j)]> m)
           else None
       end.

(** [os.listdir(d)], in the order the system yields the entries. *)
Definition listdir (d : path) (m : fs) : option (list string) :=
  if faulty (SysListdir d) then None
  else if is_dir m d then Some (omap (child_name d) (map_to_list m).*1)
  else None.

(** [shutil.copy2(src, dst)]: [src] must be a regular file; a directory
    [dst] stands for [dst / basename(src)]; copying a file onto itself
    raises [SameFileError]. *)
Definition copy2 (src dst : path) (m : fs) : option fs :=
  if faulty (SysCopy src dst) then None
  else match lookup_node m src with
       | Some (File c) =>
           let dst' := if is_dir m dst then dst ++ [basename src] else dst in
           if decide (src = dst') then None
           else if is_dir m (parent dst') && negb (is_dir m dst')
                then Some (<[dst' := File c]> m)
                else None
       | _ => None
       end.

End Syscalls.

(** ** The program *)

(** Python orders tuples of strings lexicographically, strings by code
    point. *)
Definition tuple_le (a b : string * string) : Prop :=
  if decide (a.1 = b.1) then String.le a.2 b.2 else String.le a.1 b.1.

Global Instance tuple_le_dec : RelDecision tuple_le.
Proof. intros a b. unfold tuple_le. destruct (decide (a.1 = b.1)); apply _. Defined.

(** [sorted(s)] for a set of pairs. *)
Definition sorted (s : gset (string * string)) : list (string * string) :=
  merge_sort tuple_le (elements s).

Definition image_extensions : list string := [".png"; ".jpg"; ".jpeg"].
Definition scales : list string := ["1x"; "2x"; "3x"].
Definition scale_suffixes : list string := ["@2x"; "@3x"].

(** [[f for f in listing if Path(f).suffix.lower() in image_extensions]] *)
Definition image_files (listing : list string) : list string :=
  filter (λ f, PyStr.lower (Pathlib.suffix f) ∈ image_extensions) listing.

(** The loop over [scale_suffixes]: the first suffix the stem ends with is
    removed, and the loop stops. *)
Fixpoint strip_scale (suffixes : list string) (stem : string) : string :=
  match suffixes with
  | [] => stem
  | suf :: rest =>
      if PyStr.endswith stem suf
      then PyStr.drop_end (String.length suf) stem
      else strip_scale rest stem
  end.

(** The pair added to [base_names] for one file name. *)
Definition group_of (filename : string) : string * string :=
  (strip_scale scale_suffixes (Pathlib.stem filename), Pathlib.suffix filename).

(** The set [base_names] after the grouping loop. *)
Definition base_names (files : list string) : gset (string * string) :=
  foldl (λ acc filename, acc ∪ {[ group_of filename ]}) ∅ files.

(** The file name of a scale variant. *)
Definition variant_name (base_name ext scale : string) : string :=
  if String.eqb scale "1x" then base_name +:+ ext
  else base_name +:+ "@" +:+ PyStr.first_char scale +:+ "x" +:+ ext.

(** One entry of the images array. *)
Definition image_entry (scale : string) (filename : option string) : json :=
  JObject ([("idiom", JString "universal"); ("scale", JString scale)]
           ++ match filename with
              | Some v => [("filename", JString v)]
              | None => []
              end).

Definition info_block : json :=
  JObject [("author", JString "xcode"); ("version", JNumber 1)].

(** The manifest of an imageset. *)
Definition contents (images_array : list json) : json :=
  JObject [("images", JArray images_array); ("info", info_block)].

(** The manifest of the catalog root. *)
Definition root_contents : json := JObject [("info", info_block)].

Section Program.
Context (faulty : syscall → bool).
(** [get_project_root()], the resolved directory of the script. *)
Context (project_root : path).

Definition get_project_root : path := project_root.

Definition get_default_paths : path * path :=
  let root := get_project_root in
  (root ++ ["Sources"] ++ ["ClaudeUsagePro"] ++ ["Assets"],
   root ++ ["Sources"] ++ ["ClaudeUsagePro"] ++ ["Assets.xcassets"]).

Definition safe_rmtree (p expected_parent : path) (m : fs) : bool * fs :=
  if negb (path_exists m p) then (true, m)
  else
    let path_str := path_str p in
    if String.eqb path_str "" || bool_decide (path_str ∈ ["/"; "/"])
    then (false, m)
    else if negb (bool_decide (commonpath expected_parent p = expected_parent))
    then (false, m)
    else match rmtree faulty p m with
         | Some m' => (true, m')
         | None => (false, m)
         end.

(** The body of the loop over the scales, with the array built so far. *)
Fixpoint copy_variants (source_dir imageset_dir : path)
    (base_name ext : string) (scales : list string)
    (images_array : list json) (m : fs) : list json * fs :=
  match scales with
  | [] => (images_array, m)
  | scale :: rest =>
      let variant := variant_name base_name ext scale in
      let source_file := source_dir ++ [variant] in
      let '(filename, m') :=
        if path_exists m source_file then
          match copy2 faulty source_file (imageset_dir ++ [variant]) m with
          | Some m' => (Some variant, m')
          | None => (None, m)
          end
        else (None, m) in
      copy_variants source_dir imageset_dir base_name ext rest
        (images_array ++ [image_entry scale filename]) m'
  end.

Definition create_imageset (source_dir dest_dir : path)
    (base_name ext : string) (scales : list string) (m : fs) : bool * fs :=
  let imageset_dir := dest_dir ++ [base_name +:+ ".imageset"] in
  match makedirs faulty imageset_dir m with
  | None => (false, m)
  | Some m1 =>
      let '(images_array, m2) :=
        copy_variants source_dir imageset_dir base_name ext scales [] m1 in
      match write_json faulty (imageset_dir ++ ["Contents.json"])
              (contents images_array) m2 with
      | None => (false, m2)
      | Some m3 => (true, m3)
      end
  end.

(** The loop over the sorted groups, with the flag [all_success]. *)
Fixpoint process (source_dir dest_dir : path)
    (groups : list (string * string)) (all_success : bool) (m : fs)
    : bool * fs :=
  match groups with
  | [] => (all_success, m)
  | (base_name, ext) :: rest =>
      let '(success, m') :=
        create_imageset source_dir dest_dir base_name ext scales m in
      process source_dir dest_dir rest
        (if success then all_success else false) m'
  end.

(** What [migrate_assets] does once the destination is out of the way. *)
Definition rebuild (source_dir dest_dir : path) (m : fs) : bool * fs :=
  match makedirs faulty dest_dir m with
  | None => (false, m)
  | Some m1 =>
      match write_json faulty (dest_dir ++ ["Contents.json"]) root_contents m1 with
      | None => (false, m1)
      | Some m2 =>
          match listdir faulty source_dir m2 with
          | None => (false, m2)
          | Some listing =>
              let files := image_files listing in
              process source_dir dest_dir (sorted (base_names files)) true m2
          end
      end
  end.

Definition migrate_assets (source_dir dest_dir : path) (m : fs) : bool * fs :=
  if negb (path_exists m source_dir) then (false, m)
  else if negb (is_dir m source_dir) then (false, m)
  else
    let expected_parent := get_project_root ++ ["Sources"] in
    match safe_rmtree dest_dir expected_parent m with
    | (false, m') => (false, m')
    | (true, m') => rebuild source_dir dest_dir m'
    end.

(** The paths [main] settles on: the environment, then the defaults, then
    the command line. *)
Definition resolve_paths (argv : list string) (environ : gmap string string)
    : Pathlib.PurePath * Pathlib.PurePath :=
  let '(default_source, default_dest) := get_default_paths in
  let source_dir :=
    Pathlib.por (Pathlib.Path (default "" (environ !! "ASSET_SOURCE_DIR")))
                (Pathlib.of_resolved default_source) in
  let dest_dir :=
    Pathlib.por (Pathlib.Path (default "" (environ !! "ASSET_DEST_DIR")))
                (Pathlib.of_resolved default_dest) in
  let source_dir :=
    if decide (2 ≤ length argv)
    then Pathlib.Path (default "" (argv !! 1)) else source_dir in
  let dest_dir :=
    if decide (3 ≤ length argv)
    then Pathlib.Path (default "" (argv !! 2)) else dest_dir in
  (source_dir, dest_dir).


End Program.

(** ** Vocabulary of the specification *)

(** The oracle under which no call fails. *)
Definition no_faults : syscall → bool := λ _, false.

(** [k] lies strictly below the directory [d]. *)
Definition under (d k : path) : Prop := d `prefix_of` k ∧ k ≠ d.

(** Two directories neither of which holds the other. *)
Definition unrelated (p q : path) : Prop :=
  ¬ p `prefix_of` q ∧ ¬ q `prefix_of` p.

(** Every directory from the root down to [d] exists. *)
Definition dirs_above (m : fs) (d : path) : Prop :=
  ∀ k, k `prefix_of` d → is_dir m k = true.

(** [m'] differs from [m] only strictly below [d]. *)
Definition frame (d : path) (m m' : fs) : Prop :=
  ∀ k, ¬ under d k → m' !! k = m !! k.

(** ** Sample trees

    A project at [/proj] with the default layout; [sample_tree entries] puts
    the given entries into the default source directory. *)

Definition sample_root : path := ["proj"].
Definition sample_source : path := (get_default_paths sample_root).1.
Definition sample_dest : path := (get_default_paths sample_root).2.

Definition sample_tree (entries : list (string * node)) : fs :=
  list_to_map
    ([(["proj"], Dir); (["proj"; "Sources"], Dir);
      (["proj"; "Sources"; "ClaudeUsagePro"], Dir); (sample_source, Dir)]
     ++ ((λ e : string * node, (sample_source ++ [e.1], e.2)) <$> entries)).

(** The directory of the imageset of a base name, and its manifest. *)
Definition imageset_dir (dst : path) (base : string) : path :=
  dst ++ [base +:+ ".imageset"].

Definition manifest_path (dst : path) (base : string) : path :=
  imageset_dir dst base ++ ["Contents.json"].

(** ** What one imageset build leaves behind *)

(** The bytes copied for the variant named [v]: the source entry is a
    regular file and the copy does not fail. *)
Definition copied (faulty : syscall → bool) (src imgdir : path) (m : fs)
    (v : string) : option content :=
  match m !! (src ++ [v]) with
  | Some (File c) =>
      if faulty (SysCopy (src ++ [v]) (imgdir ++ [v])) then None else Some c
  | _ => None
  end.

(** The tree after the variant of one scale has been dealt with. *)
Definition put_variant (faulty : syscall → bool) (src imgdir : path) (m0 : fs)
    (base ext : string) (s : fs) (scale : string) : fs :=
  match copied faulty src imgdir m0 (variant_name base ext scale) with
  | Some c => <[imgdir ++ [variant_name base ext scale] := File c]> s
  | None => s
  end.

(** The manifest entry of one scale. *)
Definition entry_of (faulty : syscall → bool) (src imgdir : path) (m0 : fs)
    (base ext : string) (scale : string) : json :=
  image_entry scale
    (match copied faulty src imgdir m0 (variant_name base ext scale) with
     | Some _ => Some (variant_name base ext scale)
     | None => None
     end).

(** The manifest of the group [(base, ext)] built from the sources in [m0]. *)
Definition manifest_of (faulty : syscall → bool) (src dst : path) (m0 : fs)
    (base ext : string) : json :=
  contents (entry_of faulty src (imageset_dir dst base) m0 base ext <$> scales).

(** The tree an imageset build leaves when creating the directory and
    writing the manifest both succeed. *)
Definition built (faulty : syscall → bool) (src dst : path) (m0 : fs)
    (base ext : string) (s : fs) : fs :=
  <[manifest_path dst base :=
      File (Document (manifest_of faulty src dst m0 base ext))]>
    (foldl (put_variant faulty src (imageset_dir dst base) m0 base ext)
       (<[imageset_dir dst base := Dir]> s) scales).

(** The tree after the imagesets of a list of groups have been built in
    turn. *)
Definition built_all (faulty : syscall → bool) (src dst : path) (m0 : fs)
    (groups : list (string * string)) (s : fs) : fs :=
  foldl (λ s g, built faulty src dst m0 g.1 g.2 s) s groups.

(** A tree in which the imagesets can be built: the destination exists, the
    entries of the source are those of [m0], no imageset directory holds a
    directory and no imageset directory is a regular file. *)
Definition tidy (src dst : path) (m0 s : fs) : Prop :=
  dirs_above s dst ∧
  (∀ v, s !! (src ++ [v]) = m0 !! (src ++ [v])) ∧
  (∀ b v, is_dir s (imageset_dir dst b ++ [v]) = false) ∧
  (∀ b c, s !! imageset_dir dst b ≠ Some (File c)).

(** The groups discovered in the source directory of the tree [m]. *)
Definition discovered (src : path) (m : fs) : gset (string * string) :=
  base_names (image_files (default [] (listdir no_faults src m))).

(** A run in which only copies may fail: the tree is well formed, the source
    is a directory, source and destination are separate directories, no
    regular file lies on the way to the destination, the destination does
    not exist or lies in the expected parent, and the oracle fails copies
    only. *)
Definition clean_run (faulty : syscall → bool) (root src dst : path) (m : fs) : Prop :=
  wf m ∧
  is_dir m src = true ∧
  unrelated src dst ∧
  (∀ k c, k `prefix_of` dst → m !! k ≠ Some (File c)) ∧
  (path_exists m dst = false ∨
   (get_project_root root ++ ["Sources"]) `prefix_of` dst) ∧
  (∀ call, faulty call = true → ∃ a b, call = SysCopy a b).

(** The destination emptied, recreated and given its root manifest: the tree
    in which the imagesets of a run are built. *)
Definition catalog (dst : path) (m : fs) : fs :=
  <[dst ++ ["Contents.json"] := File (Document root_contents)]>
    (default (outside dst m) (makedirs_from [] dst (outside dst m))).

(** The oracle under which every copy fails and nothing else does. *)
Definition copies_fail : syscall → bool :=
  λ call, match call with SysCopy _ _ => true | _ => false end.

(** * Verification *)

(** ** Paths *)

Lemma under_app (d q : path) : q ≠ [] → under d (d ++ q).
Proof.
  intros Hq. split; [by apply prefix_app_r|].
  intros Heq. apply Hq. apply (inj (app d)). by rewrite app_nil_r.
Qed.

Lemma under_trans_prefix (d e k : path) : under d e → e `prefix_of` k → under d k.
Proof.
  intros [Hde Hne] Hek. split; [by etrans|].
  intros ->. apply Hne. by apply (anti_symm prefix).
Qed.

Lemma under_inv (d k : path) : under d k → ∃ n q, k = d ++ n :: q.
Proof.
  intros [[q ->] Hne]. destruct q as [|n q]; [by rewrite app_nil_r in Hne|eauto].
Qed.

Lemma not_under_self (d : path) : ¬ under d d.
Proof. by intros [_ ?]. Qed.

Lemma prefix_snoc_inv (k d : path) (n : string) :
  k `prefix_of` d ++ [n] → k = d ++ [n] ∨ k `prefix_of` d.
Proof.
  intros [q Hq]. destruct (decide (q = [])) as [->|Hne].
  - left. by rewrite app_nil_r in Hq.
  - right. destruct (exists_last Hne) as (q' & x & ->).
    rewrite app_assoc in Hq. apply app_inj_tail in Hq as [-> _].
    by apply prefix_app_r.
Qed.

Lemma app_cons_ne_self (d : path) (n : string) (q : path) : d ++ n :: q ≠ d.
Proof.
  intros H. apply (f_equal length) in H. rewrite length_app in H. simpl in H. lia.
Qed.

Lemma snoc_ne_snoc2 (d : path) (a b c : string) : d ++ [a] ≠ d ++ [b; c].
Proof. intros H. by apply (inj (app d)) in H. Qed.

Lemma parent_snoc (d : path) (n : string) : parent (d ++ [n]) = d.
Proof.
  unfold parent. rewrite length_app. simpl.
  replace (length d + 1 - 1) with (length d) by lia.
  by rewrite take_app_length.
Qed.

Lemma basename_snoc (d : path) (n : string) : basename (d ++ [n]) = n.
Proof. unfold basename. by rewrite last_snoc. Qed.

Lemma lookup_node_snoc (m : fs) (d : path) (n : string) :
  lookup_node m (d ++ [n]) = m !! (d ++ [n]).
Proof. by destruct d. Qed.

Lemma lookup_node_ne (m : fs) (p : path) : p ≠ [] → lookup_node m p = m !! p.
Proof. by destruct p. Qed.

Lemma commonpath_prefix (e p : path) : commonpath e p = e ↔ e `prefix_of` p.
Proof.
  unfold commonpath. split.
  - intros <-. apply max_prefix_snd_prefix.
  - intros Hp. apply (anti_symm prefix).
    + apply max_prefix_fst_prefix.
    + by apply max_prefix_max.
Qed.

(** ** Removing a tree *)

Lemma lookup_outside (d : path) (m : fs) (k : path) :
  outside d m !! k = if decide (d `prefix_of` k) then None else m !! k.
Proof.
  unfold outside. destruct (decide (d `prefix_of` k)) as [Hp|Hp].
  - apply map_lookup_filter_None. right. intros x _ Hn. by apply Hn.
  - destruct (m !! k) as [x|] eqn:Hk.
    + apply map_lookup_filter_Some. done.
    + apply map_lookup_filter_None. by left.
Qed.

Lemma outside_idemp (d : path) (m : fs) : outside d (outside d m) = outside d m.
Proof.
  apply map_eq. intros k. rewrite !lookup_outside. by case_decide.
Qed.

(** In a well-formed tree nothing lies below a path that does not exist. *)
Lemma wf_absent_below (m : fs) (d : path) :
  wf m → lookup_node m d = None → ∀ q, m !! (d ++ q) = None.
Proof.
  intros Hwf Hd q. induction q as [|n q IH] using rev_ind.
  - rewrite app_nil_r. destruct d; [done|]. done.
  - destruct (m !! (d ++ q ++ [n])) as [x|] eqn:Hx; [|done].
    rewrite app_assoc in Hx.
    assert (lookup_node m (d ++ q) = Some Dir) as Hdir by (apply (Hwf _ n); eauto).
    destruct (d ++ q) eqn:Hdq.
    + apply app_eq_nil in Hdq as [-> ->]. done.
    + simpl in Hdir. rewrite <- Hdq in Hdir. congruence.
Qed.

Lemma wf_outside_absent (m : fs) (d : path) :
  wf m → lookup_node m d = None → outside d m = m.
Proof.
  intros Hwf Hd. apply map_eq. intros k. rewrite lookup_outside.
  case_decide as Hp; [|done]. destruct Hp as [q ->].
  symmetry. by apply wf_absent_below.
Qed.

(** ** Creating directories *)

Lemma is_dir_Some (m : fs) (k : path) :
  is_dir m k = true ↔ lookup_node m k = Some Dir.
Proof.
  unfold is_dir. destruct (lookup_node m k) as [[|c]|]; split; congruence.
Qed.

Lemma is_dir_lookup (m : fs) (k : path) : m !! k = Some Dir → is_dir m k = true.
Proof. intros H. apply is_dir_Some. destruct k; [done|]. done. Qed.

(** Well-formedness can be checked entry by entry. *)
Lemma wf_check (m : fs) :
  map_Forall (λ k _, is_dir m (parent k) = true) m → wf m.
Proof.
  intros H p n [x Hx]. specialize (H _ _ Hx). simpl in H.
  rewrite parent_snoc in H. by apply is_dir_Some.
Qed.

Lemma makedirs_from_lookup (pre rest : path) (m m' : fs) :
  makedirs_from pre rest m = Some m' →
  ∀ k, m' !! k = m !! k ∨
       (m !! k = None ∧ m' !! k = Some Dir ∧ under pre k ∧ k `prefix_of` pre ++ rest).
Proof.
  revert pre m. induction rest as [|n rest IH]; intros pre m Hmk k; simpl in Hmk.
  { left. congruence. }
  assert (under pre (pre ++ [n])) as Hu by (by apply under_app).
  assert (pre ++ n :: rest = (pre ++ [n]) ++ rest) as Hassoc by (by rewrite <- app_assoc).
  rewrite lookup_node_snoc in Hmk.
  destruct (m !! (pre ++ [n])) as [[|c]|] eqn:Hq; [| done |].
  - destruct (IH _ _ Hmk k) as [?|(?&?&Hk&?)]; [by left|right].
    rewrite Hassoc. split_and!; try done.
    eapply under_trans_prefix; [exact Hu|apply Hk].
  - destruct (is_dir m pre); [|done].
    destruct (IH _ _ Hmk k) as [Heq|(Hn&?&Hk&?)].
    + destruct (decide (k = pre ++ [n])) as [->|Hne].
      * right. rewrite lookup_insert_eq in Heq. rewrite Hassoc. split_and!; try done.
        by apply prefix_app_r.
      * left. by rewrite lookup_insert_ne in Heq.
    + destruct (decide (k = pre ++ [n])) as [->|Hne].
      * by rewrite lookup_insert_eq in Hn.
      * right. rewrite lookup_insert_ne in Hn by done. rewrite Hassoc.
        split_and!; try done. eapply under_trans_prefix; [exact Hu|apply Hk].
Qed.

Lemma makedirs_from_keeps (pre rest : path) (m m' : fs) (k : path) (x : node) :
  makedirs_from pre rest m = Some m' → m !! k = Some x → m' !! k = Some x.
Proof.
  intros Hmk Hk. destruct (makedirs_from_lookup _ _ _ _ Hmk k) as [->|(?&_)]; congruence.
Qed.

Lemma makedirs_from_keeps_dir (pre rest : path) (m m' : fs) (k : path) :
  makedirs_from pre rest m = Some m' → is_dir m k = true → is_dir m' k = true.
Proof.
  intros Hmk Hk. destruct k as [|a k]; [done|].
  apply is_dir_Some in Hk. simpl in Hk.
  apply is_dir_lookup. by eapply makedirs_from_keeps.
Qed.

Lemma makedirs_from_dirs (pre rest : path) (m m' : fs) :
  makedirs_from pre rest m = Some m' → is_dir m pre = true →
  ∀ r, r `prefix_of` rest → is_dir m' (pre ++ r) = true.
Proof.
  revert pre m. induction rest as [|n rest IH]; intros pre m Hmk Hpre r Hr.
  { apply prefix_nil_inv in Hr as ->. rewrite app_nil_r. simpl in Hmk. congruence. }
  destruct r as [|a r].
  { rewrite app_nil_r. by eapply makedirs_from_keeps_dir. }
  pose proof (prefix_cons_inv_1 _ _ _ _ Hr) as ->.
  apply prefix_cons_inv_2 in Hr.
  simpl in Hmk. rewrite lookup_node_snoc in Hmk.
  replace (pre ++ n :: r) with ((pre ++ [n]) ++ r) by (by rewrite <- app_assoc).
  destruct (m !! (pre ++ [n])) as [[|c]|] eqn:Hq; [| done |].
  - eapply IH; [exact Hmk| by apply is_dir_lookup |done].
  - destruct (is_dir m pre); [|done].
    eapply IH; [exact Hmk| |done]. apply is_dir_lookup. by rewrite lookup_insert_eq.
Qed.

Lemma makedirs_dirs_above (faulty : syscall → bool) (d : path) (m m' : fs) :
  makedirs faulty d m = Some m' → dirs_above m' d.
Proof.
  unfold makedirs. destruct (faulty _); [done|]. intros Hmk k Hk.
  by apply (makedirs_from_dirs [] d m m' Hmk eq_refl k).
Qed.

(** Below a chain of existing directories, creating one more level is a
    single insertion. *)
Lemma makedirs_from_child (pre rest : path) (n : string) (m : fs) :
  (∀ r, r `prefix_of` rest → is_dir m (pre ++ r) = true) →
  makedirs_from pre (rest ++ [n]) m =
    match m !! (pre ++ rest ++ [n]) with
    | Some Dir => Some m
    | Some (File _) => None
    | None => Some (<[pre ++ rest ++ [n] := Dir]> m)
    end.
Proof.
  revert pre. induction rest as [|a rest IH]; intros pre Hdirs; simpl.
  - rewrite lookup_node_snoc.
    destruct (m !! (pre ++ [n])) as [[|c]|]; [done..|].
    specialize (Hdirs [] (prefix_nil _)). rewrite app_nil_r in Hdirs. by rewrite Hdirs.
  - assert (is_dir m (pre ++ [a]) = true) as Ha.
    { apply Hdirs. by apply prefix_cons, prefix_nil. }
    apply is_dir_Some in Ha. rewrite Ha.
    replace (pre ++ a :: rest ++ [n]) with ((pre ++ [a]) ++ rest ++ [n])
      by (by rewrite <- app_assoc).
    apply IH. intros r Hr. rewrite <- app_assoc. apply Hdirs. by apply prefix_cons.
Qed.

Lemma makedirs_child (faulty : syscall → bool) (d : path) (n : string) (m : fs) :
  dirs_above m d →
  makedirs faulty (d ++ [n]) m =
    if faulty (SysMakedirs (d ++ [n])) then None
    else match m !! (d ++ [n]) with
         | Some Dir => Some m
         | Some (File _) => None
         | None => Some (<[d ++ [n] := Dir]> m)
         end.
Proof.
  intros Hd. unfold makedirs. destruct (faulty _); [done|].
  by apply (makedirs_from_child [] d n m).
Qed.

(** ** The frame: what a step leaves alone *)

Lemma frame_refl (d : path) (m : fs) : frame d m m.
Proof. by intros k _. Qed.

Lemma frame_trans (d : path) (m1 m2 m3 : fs) :
  frame d m1 m2 → frame d m2 m3 → frame d m1 m3.
Proof. intros H12 H23 k Hk. by rewrite H23, H12. Qed.

Lemma frame_insert (d : path) (n : string) (q : path) (x : node) (m : fs) :
  frame d m (<[d ++ n :: q := x]> m).
Proof.
  intros k Hk. apply lookup_insert_ne. intros <-. apply Hk. by apply under_app.
Qed.

Lemma frame_lookup_node (d : path) (m m' : fs) (k : path) :
  frame d m m' → ¬ under d k → lookup_node m' k = lookup_node m k.
Proof. intros Hf Hk. destruct k; [done|]. simpl. by apply Hf. Qed.

Lemma frame_is_dir (d : path) (m m' : fs) (k : path) :
  frame d m m' → ¬ under d k → is_dir m' k = is_dir m k.
Proof. intros Hf Hk. unfold is_dir. by rewrite (frame_lookup_node d m m'). Qed.

Lemma prefix_not_under (d k : path) : k `prefix_of` d → ¬ under d k.
Proof. intros Hk [Hd Hne]. apply Hne. by apply (anti_symm prefix). Qed.

Lemma frame_dirs_above (d : path) (m m' : fs) :
  frame d m m' → dirs_above m d → dirs_above m' d.
Proof.
  intros Hf Hd k Hk. rewrite (frame_is_dir d m m'); auto using prefix_not_under.
Qed.

Lemma frame_outside (d : path) (m m' : fs) :
  frame d m m' → outside d m' = outside d m.
Proof.
  intros Hf. apply map_eq. intros k. rewrite !lookup_outside.
  case_decide as Hp; [done|]. apply Hf. intros [? _]. done.
Qed.

Section Frames.
Context (faulty : syscall → bool).

Lemma write_json_frame (d : path) (n : string) (q : path) (j : json) (m m' : fs) :
  write_json faulty (d ++ n :: q) j m = Some m' → frame d m m'.
Proof.
  unfold write_json. destruct (faulty _); [done|].
  destruct (d ++ n :: q) eqn:Hk; [done|]. rewrite <- Hk.
  destruct (_ && _); [|done]. intros [= <-]. apply frame_insert.
Qed.

Lemma copy2_frame (src d : path) (n : string) (q : path) (m m' : fs) :
  copy2 faulty src (d ++ n :: q) m = Some m' → frame d m m'.
Proof.
  unfold copy2. destruct (faulty _); [done|].
  destruct (lookup_node m src) as [[|c]|]; [done| |done].
  destruct (is_dir m (d ++ n :: q)).
  - rewrite <- app_assoc. simpl. case_decide; [done|].
    destruct (_ && _); [|done]. intros [= <-]. apply frame_insert.
  - case_decide; [done|].
    destruct (_ && _); [|done]. intros [= <-]. apply frame_insert.
Qed.

Lemma copy_variants_frame (src d : path) (n base ext : string)
    (scs : list string) (imgs imgs' : list json) (m m' : fs) :
  copy_variants faulty src (d ++ [n]) base ext scs imgs m = (imgs', m') →
  frame d m m'.
Proof.
  revert imgs m. induction scs as [|sc scs IH]; intros imgs m; simpl.
  { intros [= _ <-]. apply frame_refl. }
  destruct (path_exists m _).
  - destruct (copy2 faulty _ _ m) as [m1|] eqn:Hcp.
    + intros Hrest. eapply frame_trans; [|by eapply IH].
      rewrite <- app_assoc in Hcp. by eapply copy2_frame.
    + apply IH.
  - apply IH.
Qed.

Lemma makedirs_child_frame (d : path) (n : string) (m m' : fs) :
  dirs_above m d → makedirs faulty (d ++ [n]) m = Some m' → frame d m m'.
Proof.
  intros Hd. rewrite makedirs_child by done.
  destruct (faulty _); [done|].
  destruct (m !! (d ++ [n])) as [[|c]|]; [|done|].
  - intros [= <-]. apply frame_refl.
  - intros [= <-]. apply frame_insert.
Qed.

Lemma create_imageset_frame (src d : path) (base ext : string)
    (scs : list string) (m : fs) :
  dirs_above m d →
  frame d m (create_imageset faulty src d base ext scs m).2.
Proof.
  intros Hd. unfold create_imageset.
  destruct (makedirs faulty _ m) as [m1|] eqn:Hmk; [|apply frame_refl].
  apply makedirs_child_frame in Hmk; [|done].
  destruct (copy_variants _ _ _ _ _ _ _ m1) as [imgs m2] eqn:Hcv.
  apply copy_variants_frame in Hcv.
  destruct (write_json _ _ _ m2) as [m3|] eqn:Hw; simpl.
  - rewrite <- app_assoc in Hw. apply write_json_frame in Hw.
    eauto using frame_trans.
  - eauto using frame_trans.
Qed.

Lemma process_frame (src d : path) (groups : list (string * string))
    (ok : bool) (m : fs) :
  dirs_above m d → frame d m (process faulty src d groups ok m).2.
Proof.
  revert ok m. induction groups as [|[base ext] groups IH]; intros ok m Hd; simpl.
  { apply frame_refl. }
  pose proof (create_imageset_frame src d base ext scales m Hd) as Hf.
  destruct (create_imageset _ _ _ _ _ _ m) as [success m1]. simpl in Hf.
  eapply frame_trans; [exact Hf|]. apply IH. by eapply frame_dirs_above.
Qed.

Lemma rebuild_frame (src d : path) (m m1 : fs) :
  makedirs faulty d m = Some m1 → frame d m1 (rebuild faulty src d m).2.
Proof.
  intros Hmk. unfold rebuild. rewrite Hmk.
  pose proof (makedirs_dirs_above _ _ _ _ Hmk) as Hd.
  destruct (write_json _ _ _ m1) as [m2|] eqn:Hw; [|apply frame_refl].
  apply write_json_frame in Hw.
  destruct (listdir _ _ m2) as [listing|]; [|done].
  eapply frame_trans; [exact Hw|]. apply process_frame.
  by eapply frame_dirs_above.
Qed.

Lemma rebuild_no_makedirs (src d : path) (m : fs) :
  makedirs faulty d m = None → rebuild faulty src d m = (false, m).
Proof. intros Hmk. unfold rebuild. by rewrite Hmk. Qed.

End Frames.

(** ** The guarded delete *)

Lemma pair_fst_true {A} (r : bool * A) : r.1 = true → r = (true, r.2).
Proof. destruct r as [b a]. simpl. by intros ->. Qed.

Lemma is_dir_exists (m : fs) (p : path) : is_dir m p = true → path_exists m p = true.
Proof. unfold is_dir, path_exists. by destruct (lookup_node m p) as [[|c]|]. Qed.

Lemma path_exists_None (m : fs) (p : path) :
  path_exists m p = false ↔ lookup_node m p = None.
Proof. unfold path_exists. destruct (lookup_node m p); split; congruence. Qed.

Lemma safe_rmtree_absent (faulty : syscall → bool) (p expected : path) (m : fs) :
  path_exists m p = false → safe_rmtree faulty p expected m = (true, m).
Proof. intros H. unfold safe_rmtree. by rewrite H. Qed.

Lemma safe_rmtree_refuse (faulty : syscall → bool) (p expected : path) (m : fs) :
  path_exists m p = true → p = [] ∨ ¬ expected `prefix_of` p →
  safe_rmtree faulty p expected m = (false, m).
Proof.
  intros Hex Hbad. unfold safe_rmtree. rewrite Hex. simpl.
  destruct Hbad as [->|Hbad]; [done|].
  destruct (_ || _); [done|].
  rewrite bool_decide_eq_false_2; [done|]. by rewrite commonpath_prefix.
Qed.

Lemma migrate_assets_guard (faulty : syscall → bool) (root src dst : path) (m : fs) :
  safe_rmtree faulty dst (get_project_root root ++ ["Sources"]) m = (false, m) →
  migrate_assets faulty root src dst m = (false, m).
Proof.
  intros Hg. unfold migrate_assets.
  destruct (negb (path_exists m src)); [done|].
  destruct (negb (is_dir m src)); [done|]. by rewrite Hg.
Qed.

(** C1 (as amended): when the destination exists and its resolved path is
    the root, or is not the expected parent directory or a descendant of it,
    the guarded delete refuses and reports failure, and [migrate_assets]
    reports failure and leaves the whole tree as it was: nothing is deleted
    and nothing is written. *)
Theorem guarded_delete_refuses (faulty : syscall → bool) (root src dst : path) (m : fs) :
  path_exists m dst = true →
  dst = [] ∨ ¬ (get_project_root root ++ ["Sources"]) `prefix_of` dst →
  safe_rmtree faulty dst (get_project_root root ++ ["Sources"]) m = (false, m) ∧
  migrate_assets faulty root src dst m = (false, m).
Proof.
  intros Hex Hbad.
  assert (safe_rmtree faulty dst (get_project_root root ++ ["Sources"]) m = (false, m))
    as Hg by (by apply safe_rmtree_refuse).
  split; [done|]. by apply migrate_assets_guard.
Qed.

Lemma guarded_delete_refuses_witness :
  safe_rmtree no_faults ["proj"] (get_project_root sample_root ++ ["Sources"])
    (sample_tree [("x.png", File (Blob "1"))])
  = (false, sample_tree [("x.png", File (Blob "1"))]) ∧
  migrate_assets no_faults sample_root sample_source ["proj"]
    (sample_tree [("x.png", File (Blob "1"))])
  = (false, sample_tree [("x.png", File (Blob "1"))]).
Proof.
  apply (guarded_delete_refuses no_faults sample_root sample_source ["proj"]).
  - vm_compute. reflexivity.
  - right. intros [k Hk]. vm_compute in Hk. discriminate Hk.
Defined.

(** C1 as stated fails: a destination outside the expected parent that does
    not exist yet passes the guarded delete, and [migrate_assets] goes on to
    write there. *)
Lemma guarded_delete_absent_counterexample :
  ¬ (get_project_root sample_root ++ ["Sources"]) `prefix_of` ["tmp"; "out"] ∧
  (safe_rmtree no_faults ["tmp"; "out"]
     (get_project_root sample_root ++ ["Sources"])
     (sample_tree [("x.png", File (Blob "1"))])).1 = true ∧
  (migrate_assets no_faults sample_root sample_source ["tmp"; "out"]
     (sample_tree [("x.png", File (Blob "1"))])).2 !! ["tmp"; "out"; "Contents.json"]
  = Some (File (Document root_contents)).
Proof.
  split_and!.
  - intros [k Hk]. vm_compute in Hk. discriminate Hk.
  - vm_compute. reflexivity.
  - vm_compute. reflexivity.
Qed.

(** C10: a destination that does not exist passes the guarded delete
    whatever the expected parent is, so [migrate_assets] goes straight to
    rebuilding and, when the directories can be created, leaves a directory
    at the destination, inside the expected parent or not. *)
Theorem guarded_delete_skips_absent (faulty : syscall → bool)
    (root src dst : path) (m : fs) :
  path_exists m dst = false →
  is_dir m src = true →
  is_Some (makedirs faulty dst m) →
  (∀ expected, safe_rmtree faulty dst expected m = (true, m)) ∧
  migrate_assets faulty root src dst m = rebuild faulty src dst m ∧
  is_dir (migrate_assets faulty root src dst m).2 dst = true.
Proof.
  intros Hno Hsrc [m1 Hmk].
  assert (migrate_assets faulty root src dst m = rebuild faulty src dst m) as Hmig.
  { unfold migrate_assets. rewrite (is_dir_exists _ _ Hsrc), Hsrc. simpl.
    by rewrite safe_rmtree_absent. }
  split_and!; [by intros; apply safe_rmtree_absent|done|].
  rewrite Hmig.
  rewrite (frame_is_dir dst m1); [|by eapply rebuild_frame|apply not_under_self].
  by eapply makedirs_dirs_above.
Qed.

Lemma guarded_delete_skips_absent_witness :
  ¬ (get_project_root sample_root ++ ["Sources"]) `prefix_of` ["tmp"; "out"] ∧
  is_dir (migrate_assets no_faults sample_root sample_source ["tmp"; "out"]
            (sample_tree [("x.png", File (Blob "1"))])).2 ["tmp"; "out"] = true.
Proof.
  split.
  - intros [k Hk]. vm_compute in Hk. discriminate Hk.
  - apply (guarded_delete_skips_absent no_faults sample_root sample_source
             ["tmp"; "out"] (sample_tree [("x.png", File (Blob "1"))])).
    + vm_compute. reflexivity.
    + vm_compute. reflexivity.
    + apply (bool_decide_unpack _). vm_compute. exact I.
Defined.

(** ** The path resolver *)

(** C3 (the code departs from it): with no argument on the command line and
    an empty environment, [main] settles on [Path("")] for both directories,
    the current directory, and not on the built-in defaults: a path object is
    always true, so [Path(...) or default] never yields the default. *)
Theorem resolve_paths_ignores_defaults (root : path) (script : string) :
  resolve_paths root [script] ∅ = (Pathlib.Path "", Pathlib.Path "") ∧
  Pathlib.Path "" = Pathlib.MkPath false [] ∧
  resolve_paths root [script] ∅
  ≠ (Pathlib.of_resolved (get_default_paths root).1,
     Pathlib.of_resolved (get_default_paths root).2).
Proof.
  split_and!; [done..|]. unfold resolve_paths. simpl. intros [=].
Qed.


(** The environment is used when the command line gives nothing. *)
Lemma resolve_paths_environ (root : path) (script a b : string)
    (environ : gmap string string) :
  environ !! "ASSET_SOURCE_DIR" = Some a →
  environ !! "ASSET_DEST_DIR" = Some b →
  resolve_paths root [script] environ = (Pathlib.Path a, Pathlib.Path b).
Proof. intros Ha Hb. unfold resolve_paths. simpl. by rewrite Ha, Hb. Qed.

(** ** The order of processing *)

Global Instance tuple_le_total : Total tuple_le.
Proof.
  intros [a1 a2] [b1 b2]. unfold tuple_le. simpl.
  destruct (decide (a1 = b1)) as [->|Hne].
  - rewrite ?decide_True by done. apply (total String.le).
  - rewrite decide_False by done. apply (total String.le).
Qed.

Global Instance tuple_le_trans : Transitive tuple_le.
Proof.
  intros [a1 a2] [b1 b2] [c1 c2]. unfold tuple_le. simpl.
  intros H1 H2.
  destruct (decide (a1 = b1)) as [Hab|Hab], (decide (b1 = c1)) as [Hbc|Hbc];
    destruct (decide (a1 = c1)) as [Hac|Hac]; try congruence.
  - by etrans.
  - subst. destruct Hab. by apply (anti_symm String.le).
  - by etrans.
Qed.

Global Instance tuple_le_antisymm : AntiSymm (=) tuple_le.
Proof.
  intros [a1 a2] [b1 b2]. unfold tuple_le. simpl.
  destruct (decide (a1 = b1)) as [->|Hab].
  - rewrite ?decide_True by done. intros. f_equal. by apply (anti_symm String.le).
  - rewrite decide_False by done. intros. destruct Hab. by apply (anti_symm String.le).
Qed.

Lemma sorted_elem_of (s : gset (string * string)) (g : string * string) :
  g ∈ sorted s ↔ g ∈ s.
Proof. unfold sorted. by rewrite merge_sort_Permutation, elem_of_elements. Qed.

Lemma sorted_NoDup (s : gset (string * string)) : NoDup (sorted s).
Proof. unfold sorted. rewrite merge_sort_Permutation. apply NoDup_elements. Qed.

Lemma sorted_StronglySorted (s : gset (string * string)) :
  StronglySorted tuple_le (sorted s).
Proof. apply StronglySorted_merge_sort; apply _. Qed.


(** ** Listing and grouping *)

Lemma child_name_Some (d k : path) (n : string) :
  child_name d k = Some n ↔ k = d ++ [n].
Proof.
  revert k. induction d as [|x d IH]; intros k; simpl.
  - destruct k as [|y [|z k]]; split; intros H; by simplify_eq.
  - destruct k as [|y k]; [split; intros H; by simplify_eq|].
    case_decide as Hxy.
    + subst y. rewrite IH. split; intros H; by simplify_eq.
    + split; intros H; by simplify_eq.
Qed.

Lemma elem_of_listdir (faulty : syscall → bool) (d : path) (m : fs)
    (listing : list string) (n : string) :
  listdir faulty d m = Some listing → n ∈ listing ↔ is_Some (m !! (d ++ [n])).
Proof.
  unfold listdir. destruct (faulty _); [done|]. destruct (is_dir m d); [|done].
  intros [= <-]. rewrite list_elem_of_omap. split.
  - intros (k & Hk & Hn). apply child_name_Some in Hn as ->.
    apply list_elem_of_fmap in Hk as ([k x] & -> & Hkx).
    apply elem_of_map_to_list in Hkx. simpl in *. eauto.
  - intros [x Hx]. exists (d ++ [n]). split; [|by apply child_name_Some].
    apply list_elem_of_fmap. exists (d ++ [n], x). split; [done|].
    by apply elem_of_map_to_list.
Qed.

Lemma elem_of_base_names_acc (files : list string) (acc : gset (string * string))
    (g : string * string) :
  g ∈ foldl (λ acc filename, acc ∪ {[ group_of filename ]}) acc files
  ↔ g ∈ acc ∨ ∃ f, f ∈ files ∧ group_of f = g.
Proof.
  revert acc. induction files as [|f files IH]; intros acc; simpl.
  - split; [by left|]. intros [?|(f & Hf & _)]; [done|]. by apply elem_of_nil in Hf.
  - rewrite IH, elem_of_union, elem_of_singleton. split.
    + intros [[?| ->]|(f' & ? & ?)]; [by left|right..].
      * exists f. split; [left|done].
      * exists f'. split; [by right|done].
    + intros [?|(f' & Hf' & Hg)]; [by left; left|].
      apply elem_of_cons in Hf' as [->|?]; [left; by right|right; eauto].
Qed.

Lemma elem_of_base_names (files : list string) (g : string * string) :
  g ∈ base_names files ↔ ∃ f, f ∈ files ∧ group_of f = g.
Proof.
  unfold base_names. rewrite elem_of_base_names_acc. split; [|by right].
  intros [H|H]; [|done]. by apply not_elem_of_empty in H.
Qed.

Lemma elem_of_image_files (listing : list string) (f : string) :
  f ∈ image_files listing
  ↔ PyStr.lower (Pathlib.suffix f) ∈ image_extensions ∧ f ∈ listing.
Proof.
  unfold image_files.
  apply (list_elem_of_filter (λ f, PyStr.lower (Pathlib.suffix f) ∈ image_extensions)).
Qed.

(** C4 (as amended): the groups are exactly the images of the entries of the
    source directory, regular files and subdirectories alike, whose suffix,
    lowercased, is [.png], [.jpg] or [.jpeg]; an entry with any other suffix
    gives rise to no group. *)
Theorem grouping_by_extension (faulty : syscall → bool) (src : path) (m : fs)
    (listing : list string) :
  listdir faulty src m = Some listing →
  ∀ g, g ∈ base_names (image_files listing) ↔
       ∃ f, is_Some (m !! (src ++ [f])) ∧
            PyStr.lower (Pathlib.suffix f) ∈ image_extensions ∧
            group_of f = g.
Proof.
  intros Hls g. rewrite elem_of_base_names. split.
  - intros (f & Hf & Hg). apply elem_of_image_files in Hf as [Hext Hf].
    exists f. split_and!; [|done..]. by eapply elem_of_listdir.
  - intros (f & Hf & Hext & Hg). exists f. split; [|done].
    apply elem_of_image_files. split; [done|]. by eapply elem_of_listdir.
Qed.

Lemma grouping_by_extension_witness :
  ("y", ".JPG") ∈ base_names (image_files ["notes.txt"; "y.JPG"]) ↔
  ∃ f, is_Some (sample_tree [("y.JPG", File (Blob "y"));
                             ("notes.txt", File (Blob "n"))]
                  !! (sample_source ++ [f])) ∧
       PyStr.lower (Pathlib.suffix f) ∈ image_extensions ∧
       group_of f = ("y", ".JPG").
Proof.
  apply (grouping_by_extension no_faults sample_source
           (sample_tree [("y.JPG", File (Blob "y")); ("notes.txt", File (Blob "n"))])
           ["notes.txt"; "y.JPG"]).
  vm_compute. reflexivity.
Defined.

(** C4 as stated fails: a subdirectory of the source whose name ends in an
    image extension is grouped like a file, and gets an imageset in the
    destination. *)
Lemma subdirectory_grouped_counterexample :
  sample_tree [("icons.png", Dir)] !! (sample_source ++ ["icons.png"]) = Some Dir ∧
  listdir no_faults sample_source (sample_tree [("icons.png", Dir)])
  = Some ["icons.png"] ∧
  base_names (image_files ["icons.png"]) = {[ ("icons", ".png") ]} ∧
  (migrate_assets no_faults sample_root sample_source sample_dest
     (sample_tree [("icons.png", Dir)])).2 !! (sample_dest ++ ["icons.imageset"])
  = Some Dir.
Proof. split_and!; vm_compute; reflexivity. Qed.

(** ** One imageset build *)

Lemma source_not_in_dest (src dst : path) (v : string) (q : path) :
  unrelated src dst → src ++ [v] ≠ dst ++ q.
Proof.
  intros [Hsd Hds] Heq.
  destruct (decide (q = [])) as [->|Hne].
  - rewrite app_nil_r in Heq. apply Hsd. rewrite <- Heq. by apply prefix_app_r.
  - destruct (exists_last Hne) as (q' & x & ->).
    rewrite app_assoc in Heq. apply app_inj_tail in Heq as [-> _].
    apply Hds. by apply prefix_app_r.
Qed.

Lemma is_dir_snoc (s : fs) (k : path) (n : string) :
  is_dir s (k ++ [n]) = match s !! (k ++ [n]) with Some Dir => true | _ => false end.
Proof. unfold is_dir. by rewrite lookup_node_snoc. Qed.

Lemma is_dir_insert_ne (s : fs) (k p : path) (x : node) :
  k ≠ p → is_dir (<[k := x]> s) p = is_dir s p.
Proof.
  intros Hne. unfold is_dir, lookup_node. destruct p; [done|].
  by rewrite lookup_insert_ne.
Qed.

Lemma write_json_snoc (faulty : syscall → bool) (d : path) (n : string)
    (j : json) (m : fs) :
  write_json faulty (d ++ [n]) j m =
    if faulty (SysOpenW (d ++ [n])) then None
    else if is_dir m d && negb (is_dir m (d ++ [n]))
         then Some (<[d ++ [n] := File (Document j)]> m)
         else None.
Proof.
  unfold write_json. destruct (faulty _); [done|].
  pose proof (parent_snoc d n) as Hp.
  destruct (d ++ [n]) as [|a p] eqn:Hdn; [by destruct d|]. by rewrite Hp.
Qed.

Section Build.
Context (faulty : syscall → bool) (src imgdir : path) (m0 : fs).
Context (Hne : src ≠ imgdir).

Lemma copy2_variant (v : string) (s : fs) :
  s !! (src ++ [v]) = m0 !! (src ++ [v]) →
  is_dir s imgdir = true →
  is_dir s (imgdir ++ [v]) = false →
  copy2 faulty (src ++ [v]) (imgdir ++ [v]) s
  = match copied faulty src imgdir m0 v with
    | Some c => Some (<[imgdir ++ [v] := File c]> s)
    | None => None
    end.
Proof.
  intros Hsrc Hdir Hnd. unfold copy2, copied.
  rewrite lookup_node_snoc, Hsrc.
  destruct (faulty _); [by destruct (m0 !! (src ++ [v])) as [[|c]|]|].
  destruct (m0 !! (src ++ [v])) as [[|c]|]; [done| |done].
  rewrite Hnd, parent_snoc, Hdir. simpl.
  rewrite decide_False, Hnd; [done|]. intros Heq. by apply app_inj_tail in Heq as [? _].
Qed.

(** In a tree where the sources are those of [m0] and the imageset
    directory holds no directory, the loop over the scales is a sequence of
    insertions. *)
Lemma copy_variants_clean (base ext : string) (scs : list string)
    (imgs : list json) (s : fs) :
  (∀ v, s !! (src ++ [v]) = m0 !! (src ++ [v])) →
  is_dir s imgdir = true →
  (∀ v, is_dir s (imgdir ++ [v]) = false) →
  copy_variants faulty src imgdir base ext scs imgs s
  = (imgs ++ (entry_of faulty src imgdir m0 base ext <$> scs),
     foldl (put_variant faulty src imgdir m0 base ext) s scs).
Proof.
  revert imgs s. induction scs as [|sc scs IH]; intros imgs s Hsrc Hdir Hnd; simpl.
  { by rewrite app_nil_r. }
  set (v := variant_name base ext sc).
  rewrite (copy2_variant v s) by done.
  assert (path_exists s (src ++ [v]) = false →
          copied faulty src imgdir m0 v = None) as Hno.
  { unfold path_exists, copied. rewrite lookup_node_snoc, Hsrc.
    by destruct (m0 !! (src ++ [v])). }
  destruct (copied faulty src imgdir m0 v) as [c|] eqn:Hc.
  - assert (put_variant faulty src imgdir m0 base ext s sc
            = <[imgdir ++ [v] := File c]> s) as ->
      by (unfold put_variant; fold v; by rewrite Hc).
    assert (entry_of faulty src imgdir m0 base ext sc = image_entry sc (Some v)) as ->
      by (unfold entry_of; fold v; by rewrite Hc).
    destruct (path_exists s (src ++ [v])); [|by discriminate Hno].
    rewrite IH; [by rewrite <- app_assoc|..].
    + intros v'. rewrite lookup_insert_ne; [done|].
      intros Heq. apply Hne. symmetry. by apply app_inj_tail in Heq as [? _].
    + rewrite is_dir_insert_ne; [done|apply app_cons_ne_self].
    + intros v'. rewrite is_dir_snoc.
      destruct (decide (imgdir ++ [v] = imgdir ++ [v'])) as [<-|Hvv].
      * by rewrite lookup_insert_eq.
      * rewrite lookup_insert_ne by done. rewrite <- is_dir_snoc. apply Hnd.
  - assert (put_variant faulty src imgdir m0 base ext s sc = s) as ->
      by (unfold put_variant; fold v; by rewrite Hc).
    assert (entry_of faulty src imgdir m0 base ext sc = image_entry sc None) as ->
      by (unfold entry_of; fold v; by rewrite Hc).
    destruct (path_exists s (src ++ [v])); rewrite IH by done; by rewrite <- app_assoc.
Qed.

Lemma put_variants_frame (base ext : string) (scs : list string) (s : fs) :
  frame imgdir s (foldl (put_variant faulty src imgdir m0 base ext) s scs).
Proof.
  revert s. induction scs as [|sc scs IH]; intros s; simpl; [apply frame_refl|].
  eapply frame_trans; [|apply IH]. unfold put_variant.
  destruct (copied _ _ _ _ _); [apply frame_insert|apply frame_refl].
Qed.

Lemma put_variants_cases (base ext : string) (scs : list string) (s : fs) (k : path) :
  foldl (put_variant faulty src imgdir m0 base ext) s scs !! k = s !! k ∨
  ∃ sc c, sc ∈ scs ∧ k = imgdir ++ [variant_name base ext sc] ∧
          copied faulty src imgdir m0 (variant_name base ext sc) = Some c ∧
          foldl (put_variant faulty src imgdir m0 base ext) s scs !! k = Some (File c).
Proof.
  revert s. induction scs as [|sc scs IH]; intros s; simpl; [by left|].
  destruct (IH (put_variant faulty src imgdir m0 base ext s sc))
    as [Heq|(sc' & c & Hin & -> & Hc & Hk)].
  - destruct (copied faulty src imgdir m0 (variant_name base ext sc)) as [c|] eqn:Hc.
    + assert (put_variant faulty src imgdir m0 base ext s sc
              = <[imgdir ++ [variant_name base ext sc] := File c]> s) as Hput
        by (unfold put_variant; by rewrite Hc).
      rewrite Hput in *.
      destruct (decide (imgdir ++ [variant_name base ext sc] = k)) as [<-|Hkk].
      * right. exists sc, c. rewrite lookup_insert_eq in Heq. split_and!; try done. left.
      * left. by rewrite lookup_insert_ne in Heq.
    + assert (put_variant faulty src imgdir m0 base ext s sc = s) as Hput
        by (unfold put_variant; by rewrite Hc).
      rewrite Hput in *. by left.
  - right. exists sc', c. split_and!; try done. by right.
Qed.

Lemma put_variants_copied (base ext : string) (scs : list string) (s : fs)
    (sc : string) (c : content) :
  sc ∈ scs →
  copied faulty src imgdir m0 (variant_name base ext sc) = Some c →
  foldl (put_variant faulty src imgdir m0 base ext) s scs
    !! (imgdir ++ [variant_name base ext sc]) = Some (File c).
Proof.
  revert s. induction scs as [|sc0 scs IH]; intros s Hin Hc; simpl.
  { by apply elem_of_nil in Hin. }
  destruct (decide (sc ∈ scs)) as [Hin'|Hnin]; [by apply IH|].
  apply elem_of_cons in Hin as [->|?]; [|done].
  destruct (put_variants_cases base ext scs
              (put_variant faulty src imgdir m0 base ext s sc0)
              (imgdir ++ [variant_name base ext sc0]))
    as [->|(sc' & c' & _ & Hk & Hc' & ->)].
  - unfold put_variant. rewrite Hc. by rewrite lookup_insert_eq.
  - apply app_inj_tail in Hk as [_ Hv]. rewrite <- Hv in Hc'. congruence.
Qed.

Lemma put_variants_dirs (base ext : string) (scs : list string) (s : fs) :
  (∀ v, is_dir s (imgdir ++ [v]) = false) →
  ∀ v, is_dir (foldl (put_variant faulty src imgdir m0 base ext) s scs)
         (imgdir ++ [v]) = false.
Proof.
  intros Hnd v. rewrite is_dir_snoc.
  destruct (put_variants_cases base ext scs s (imgdir ++ [v]))
    as [->|(sc' & c' & _ & _ & _ & ->)]; [|done].
  rewrite <- is_dir_snoc. apply Hnd.
Qed.

End Build.

(** One build, step by step: the directory, the copies, the manifest. *)
Lemma create_imageset_spec (faulty : syscall → bool) (src dst : path) (m0 : fs)
    (base ext : string) (s : fs) :
  unrelated src dst →
  dirs_above s dst →
  (∀ v, s !! (src ++ [v]) = m0 !! (src ++ [v])) →
  (∀ v, is_dir s (imageset_dir dst base ++ [v]) = false) →
  create_imageset faulty src dst base ext scales s =
    if faulty (SysMakedirs (imageset_dir dst base)) then (false, s)
    else match s !! imageset_dir dst base with
         | Some (File _) => (false, s)
         | _ =>
             if faulty (SysOpenW (manifest_path dst base))
             then (false,
                   foldl (put_variant faulty src (imageset_dir dst base) m0 base ext)
                     (<[imageset_dir dst base := Dir]> s) scales)
             else (true, built faulty src dst m0 base ext s)
         end.
Proof.
  intros Hun Hd Hsrc Hnd. unfold create_imageset.
  change (dst ++ [base +:+ ".imageset"]) with (imageset_dir dst base).
  assert (src ≠ imageset_dir dst base) as Hne.
  { intros ->. apply Hun. by apply prefix_app_r. }
  unfold imageset_dir at 1. rewrite makedirs_child by done.
  fold (imageset_dir dst base).
  destruct (faulty (SysMakedirs _)); [done|].
  assert (∀ s1, s1 = <[imageset_dir dst base := Dir]> s →
    (let '(images_array, m2) :=
       copy_variants faulty src (imageset_dir dst base) base ext scales [] s1 in
     match write_json faulty (imageset_dir dst base ++ ["Contents.json"])
             (contents images_array) m2 with
     | Some m3 => (true, m3)
     | None => (false, m2)
     end)
    = if faulty (SysOpenW (manifest_path dst base))
      then (false,
            foldl (put_variant faulty src (imageset_dir dst base) m0 base ext)
              (<[imageset_dir dst base := Dir]> s) scales)
      else (true, built faulty src dst m0 base ext s)) as Hrest.
  { intros s1 ->.
    rewrite (copy_variants_clean faulty src (imageset_dir dst base) m0 Hne).
    - unfold manifest_path. rewrite write_json_snoc.
      destruct (faulty (SysOpenW _)); [done|].
      rewrite put_variants_dirs.
      2:{ intros v. rewrite is_dir_insert_ne; [apply Hnd|].
          intros Heq. symmetry in Heq. by apply app_cons_ne_self in Heq. }
      rewrite (frame_is_dir (imageset_dir dst base) (<[imageset_dir dst base := Dir]> s));
        [|apply put_variants_frame|apply not_under_self].
      rewrite (is_dir_lookup _ _ (lookup_insert_eq _ _ _)). done.
    - intros v. rewrite lookup_insert_ne; [done|].
      intros Heq. symmetry in Heq. revert Heq. by apply source_not_in_dest.
    - unfold is_dir, imageset_dir. rewrite lookup_node_snoc. by rewrite lookup_insert_eq.
    - intros v. rewrite is_dir_insert_ne; [apply Hnd|].
      intros Heq. symmetry in Heq. by apply app_cons_ne_self in Heq. }
  destruct (s !! imageset_dir dst base) as [[|c]|] eqn:Hi.
  - apply Hrest. symmetry. by apply insert_id.
  - done.
  - by apply Hrest.
Qed.

Lemma built_manifest (faulty : syscall → bool) (src dst : path) (m0 : fs)
    (base ext : string) (s : fs) :
  built faulty src dst m0 base ext s !! manifest_path dst base
  = Some (File (Document (manifest_of faulty src dst m0 base ext))).
Proof. unfold built. apply lookup_insert_eq. Qed.

Lemma entry_of_unfold (faulty : syscall → bool) (src imgdir : path) (m : fs)
    (base ext scale : string) :
  entry_of faulty src imgdir m base ext scale
  = JObject
      ([("idiom", JString "universal"); ("scale", JString scale)]
       ++ match m !! (src ++ [variant_name base ext scale]) with
          | Some (File _) =>
              if faulty (SysCopy (src ++ [variant_name base ext scale])
                           (imgdir ++ [variant_name base ext scale]))
              then []
              else [("filename", JString (variant_name base ext scale))]
          | _ => []
          end).
Proof.
  unfold entry_of, image_entry, copied.
  destruct (m !! _) as [[|c]|]; [done| |done]. by destruct (faulty _).
Qed.

(** C7: when an imageset is built, its [Contents.json] holds the images array
    with one entry per scale in the order 1x, 2x, 3x, each with the idiom
    [universal] and its scale, and with a file name exactly when the variant
    is a regular file of the source whose copy did not fail, followed by the
    info block; the source and the destination are separate directories, the
    destination exists and the imageset directory holds no directory. *)
Theorem manifest_of_built_group (faulty : syscall → bool) (src dst : path)
    (base ext : string) (m m' : fs) :
  unrelated src dst →
  dirs_above m dst →
  (∀ v, is_dir m (imageset_dir dst base ++ [v]) = false) →
  create_imageset faulty src dst base ext scales m = (true, m') →
  m' !! manifest_path dst base
  = Some (File (Document (JObject
      [("images",
        JArray
          ((λ scale,
             JObject
               ([("idiom", JString "universal"); ("scale", JString scale)]
                ++ match m !! (src ++ [variant_name base ext scale]) with
                   | Some (File _) =>
                       if faulty (SysCopy (src ++ [variant_name base ext scale])
                                    (imageset_dir dst base
                                     ++ [variant_name base ext scale]))
                       then []
                       else [("filename", JString (variant_name base ext scale))]
                   | _ => []
                   end)) <$> ["1x"; "2x"; "3x"]));
       ("info", JObject [("author", JString "xcode"); ("version", JNumber 1)])]))).
Proof.
  intros Hun Hd Hnd Hci.
  rewrite (create_imageset_spec faulty src dst m) in Hci by done.
  destruct (faulty (SysMakedirs _)); [done|].
  assert (m' = built faulty src dst m base ext m) as ->.
  { destruct (m !! imageset_dir dst base) as [[|c]|];
      [|done|]; destruct (faulty (SysOpenW _)); by simplify_eq. }
  rewrite built_manifest. unfold manifest_of, contents, info_block, scales.
  simpl. by rewrite !entry_of_unfold.
Qed.

Lemma manifest_of_built_group_witness :
  (create_imageset no_faults sample_source sample_dest "y" ".jpg" scales
     (<[sample_dest := Dir]> (sample_tree [("y.jpg", File (Blob "y"))]))).2
    !! manifest_path sample_dest "y"
  = Some (File (Document (JObject
      [("images",
        JArray
          [JObject [("idiom", JString "universal"); ("scale", JString "1x");
                    ("filename", JString "y.jpg")];
           JObject [("idiom", JString "universal"); ("scale", JString "2x")];
           JObject [("idiom", JString "universal"); ("scale", JString "3x")]]);
       ("info", JObject [("author", JString "xcode"); ("version", JNumber 1)])]))).
Proof.
  refine (eq_trans
    (manifest_of_built_group no_faults sample_source sample_dest "y" ".jpg"
       (<[sample_dest := Dir]> (sample_tree [("y.jpg", File (Blob "y"))]))
       _ _ _ _ _) _).
  - split; intros [k Hk]; vm_compute in Hk; discriminate Hk.
  - intros k [q Hq]. vm_compute in Hq.
    destruct k as [|a [|b [|c [|d [|e k]]]]]; simplify_eq; vm_compute; reflexivity.
  - intros v. rewrite is_dir_snoc.
    rewrite (wf_absent_below _ (imageset_dir sample_dest "y")); [done| |].
    + apply wf_check. apply (bool_decide_unpack _). vm_compute. exact I.
    + vm_compute. reflexivity.
  - apply pair_fst_true. vm_compute. reflexivity.
  - vm_compute. reflexivity.
Defined.

(** ** Strings *)

Lemma append_cons (a : ascii) (s t : string) : String a s +:+ t = String a (s +:+ t).
Proof. reflexivity. Qed.

Lemma append_nil_l (t : string) : "" +:+ t = t.
Proof. reflexivity. Qed.

Lemma list_ascii_append (s t : string) :
  String.list_ascii_of_string (s +:+ t)
  = String.list_ascii_of_string s ++ String.list_ascii_of_string t.
Proof.
  induction s as [|a s IH]; [done|]. rewrite append_cons. simpl. by rewrite IH.
Qed.

Lemma list_ascii_inj (s t : string) :
  String.list_ascii_of_string s = String.list_ascii_of_string t → s = t.
Proof.
  intros H. rewrite <- (String.string_of_list_ascii_of_string s),
    <- (String.string_of_list_ascii_of_string t). by rewrite H.
Qed.

Lemma append_inj_r (s1 s2 t : string) : s1 +:+ t = s2 +:+ t → s1 = s2.
Proof.
  intros H. apply list_ascii_inj. apply (f_equal String.list_ascii_of_string) in H.
  rewrite !list_ascii_append in H. by apply app_inv_tail in H.
Qed.

Lemma append_length (s t : string) :
  String.length (s +:+ t) = String.length s + String.length t.
Proof.
  induction s as [|a s IH]; [done|]. rewrite append_cons. simpl. by rewrite IH.
Qed.

Lemma imageset_name_ne_manifest (b : string) : b +:+ ".imageset" ≠ "Contents.json".
Proof.
  intros H. apply (f_equal String.list_ascii_of_string) in H.
  rewrite list_ascii_append in H. apply (f_equal reverse) in H.
  rewrite reverse_app in H. vm_compute in H. discriminate H.
Qed.

Lemma imageset_dir_inj (dst : path) (b b' : string) (q : path) :
  imageset_dir dst b `prefix_of` imageset_dir dst b' ++ q → b = b'.
Proof.
  unfold imageset_dir. rewrite <- app_assoc. intros H.
  apply prefix_app_inv in H. simpl in H. apply prefix_cons_inv_1 in H.
  by apply append_inj_r in H.
Qed.

Lemma imageset_dir_prefix (dst : path) (b : string) (k : path) :
  imageset_dir dst b `prefix_of` k → ∃ q, k = imageset_dir dst b ++ q.
Proof. intros [q ->]. eauto. Qed.

(** ** Building the imagesets of a run *)

Lemma snoc_not_prefix (d : path) (n : string) (k : path) :
  k `prefix_of` d → ¬ d ++ [n] `prefix_of` k.
Proof.
  intros Hk Hd. apply prefix_length in Hk. apply prefix_length in Hd.
  rewrite length_app in Hd. simpl in Hd. lia.
Qed.

Lemma dest_not_above_source (src dst : path) (n v : string) :
  unrelated src dst → ¬ dst ++ [n] `prefix_of` src ++ [v].
Proof.
  intros Hun Hp. apply prefix_snoc_inv in Hp as [Heq|Hp].
  - symmetry in Heq. by apply (source_not_in_dest src dst v [n]) in Heq.
  - apply Hun. by eapply prefix_app_l.
Qed.

Section Run.
Context (faulty : syscall → bool) (src dst : path) (m0 : fs).
Context (Hun : unrelated src dst).
Context (Hmk : ∀ p, faulty (SysMakedirs p) = false).
Context (Hop : ∀ p, faulty (SysOpenW p) = false).

Lemma built_outside (b e : string) (s : fs) (k : path) :
  ¬ imageset_dir dst b `prefix_of` k →
  built faulty src dst m0 b e s !! k = s !! k.
Proof.
  intros Hk. unfold built, manifest_path.
  rewrite lookup_insert_ne by (intros <-; apply Hk; by apply prefix_app_r).
  rewrite (put_variants_frame faulty src (imageset_dir dst b) m0)
    by (by intros [? _]).
  apply lookup_insert_ne. by intros <-.
Qed.

Lemma built_dir (b e : string) (s : fs) :
  built faulty src dst m0 b e s !! imageset_dir dst b = Some Dir.
Proof.
  unfold built, manifest_path.
  rewrite lookup_insert_ne by apply app_cons_ne_self.
  rewrite (put_variants_frame faulty src (imageset_dir dst b) m0)
    by apply not_under_self.
  apply lookup_insert_eq.
Qed.

Lemma built_entry (b e n : string) (s : fs) :
  built faulty src dst m0 b e s !! (imageset_dir dst b ++ [n])
  = Some (File (Document (manifest_of faulty src dst m0 b e))) ∧ n = "Contents.json"
  ∨ built faulty src dst m0 b e s !! (imageset_dir dst b ++ [n])
    = s !! (imageset_dir dst b ++ [n])
  ∨ ∃ sc c, sc ∈ scales ∧ n = variant_name b e sc ∧
            copied faulty src (imageset_dir dst b) m0 n = Some c ∧
            built faulty src dst m0 b e s !! (imageset_dir dst b ++ [n])
            = Some (File c).
Proof.
  destruct (decide (n = "Contents.json")) as [->|Hn].
  { left. split; [apply built_manifest|done]. }
  right. unfold built, manifest_path.
  rewrite lookup_insert_ne by (intros Heq; by apply app_inj_tail in Heq as [_ ?]).
  destruct (put_variants_cases faulty src (imageset_dir dst b) m0 b e scales
              (<[imageset_dir dst b := Dir]> s) (imageset_dir dst b ++ [n]))
    as [->|(sc & c & Hin & Hk & Hc & ->)].
  - left. apply lookup_insert_ne. intros Heq. symmetry in Heq.
    by apply app_cons_ne_self in Heq.
  - right. apply app_inj_tail in Hk as [_ ->]. by exists sc, c.
Qed.

Lemma built_copied (b e sc : string) (c : content) (s : fs) :
  sc ∈ scales →
  variant_name b e sc ≠ "Contents.json" →
  copied faulty src (imageset_dir dst b) m0 (variant_name b e sc) = Some c →
  built faulty src dst m0 b e s !! (imageset_dir dst b ++ [variant_name b e sc])
  = Some (File c).
Proof.
  intros Hin Hn Hc. unfold built, manifest_path.
  rewrite lookup_insert_ne by (intros Heq; by apply app_inj_tail in Heq as [_ ?]).
  by apply put_variants_copied.
Qed.

Lemma built_tidy (b e : string) (s : fs) :
  tidy src dst m0 s → tidy src dst m0 (built faulty src dst m0 b e s).
Proof.
  intros (Hd & Hsrc & Hnd & Hnf). split_and!.
  - intros k Hk. unfold is_dir, lookup_node. destruct k as [|a k]; [done|].
    rewrite built_outside by (by apply snoc_not_prefix).
    by apply (Hd (a :: k)).
  - intros v. rewrite built_outside by (by apply dest_not_above_source). apply Hsrc.
  - intros b' v. rewrite is_dir_snoc.
    destruct (decide (imageset_dir dst b `prefix_of` imageset_dir dst b' ++ [v]))
      as [Hp|Hp].
    + apply imageset_dir_inj in Hp as <-.
      destruct (built_entry b e v s) as [[-> _]|[->|(sc & c & _ & _ & _ & ->)]];
        [done| |done].
      rewrite <- is_dir_snoc. apply Hnd.
    + rewrite built_outside by done. rewrite <- is_dir_snoc. apply Hnd.
  - intros b' c.
    destruct (decide (imageset_dir dst b `prefix_of` imageset_dir dst b')) as [Hp|Hp].
    + rewrite <- (app_nil_r (imageset_dir dst b')) in Hp.
      apply imageset_dir_inj in Hp as <-. by rewrite built_dir.
    + rewrite built_outside by done. apply Hnf.
Qed.

Lemma create_imageset_tidy (b e : string) (s : fs) :
  tidy src dst m0 s →
  create_imageset faulty src dst b e scales s
  = (true, built faulty src dst m0 b e s).
Proof.
  intros (Hd & Hsrc & Hnd & Hnf).
  rewrite (create_imageset_spec faulty src dst m0) by done.
  rewrite Hmk, Hop. specialize (Hnf b).
  by destruct (s !! imageset_dir dst b) as [[|c]|]; [| destruct (Hnf c) |].
Qed.


Lemma process_tidy (groups : list (string * string)) (ok : bool) (s : fs) :
  tidy src dst m0 s →
  process faulty src dst groups ok s
  = (ok, built_all faulty src dst m0 groups s).
Proof.
  revert ok s. induction groups as [|[b e] groups IH]; intros ok s Hs; [done|].
  simpl. rewrite create_imageset_tidy by done. rewrite IH by (by apply built_tidy).
  done.
Qed.

Lemma built_all_snoc (groups : list (string * string)) (g : string * string) (s : fs) :
  built_all faulty src dst m0 (groups ++ [g]) s
  = built faulty src dst m0 g.1 g.2 (built_all faulty src dst m0 groups s).
Proof. unfold built_all. by rewrite foldl_snoc. Qed.

Lemma built_all_app (l1 l2 : list (string * string)) (s : fs) :
  built_all faulty src dst m0 (l1 ++ l2) s
  = built_all faulty src dst m0 l2 (built_all faulty src dst m0 l1 s).
Proof. unfold built_all. by rewrite foldl_app. Qed.

Lemma built_all_outside (groups : list (string * string)) (s : fs) (k : path) :
  (∀ g, g ∈ groups → ¬ imageset_dir dst g.1 `prefix_of` k) →
  built_all faulty src dst m0 groups s !! k = s !! k.
Proof.
  revert s. induction groups as [|g groups IH]; intros s Hk; [done|].
  simpl. rewrite IH by (intros g' Hg'; apply Hk; by right).
  apply built_outside. apply Hk. left.
Qed.

Lemma built_all_dir (groups : list (string * string)) (s : fs) (g : string * string) :
  g ∈ groups →
  built_all faulty src dst m0 groups s !! imageset_dir dst g.1 = Some Dir.
Proof.
  induction groups as [|g' groups IH] using rev_ind; intros Hg.
  { by apply elem_of_nil in Hg. }
  rewrite built_all_snoc.
  destruct (decide (imageset_dir dst g'.1 `prefix_of` imageset_dir dst g.1)) as [Hp|Hp].
  - rewrite <- (app_nil_r (imageset_dir dst g.1)) in Hp.
    apply imageset_dir_inj in Hp as <-. apply built_dir.
  - rewrite built_outside by done. apply IH.
    apply elem_of_app in Hg as [?|Hg]; [done|].
    apply list_elem_of_singleton in Hg as ->. by destruct Hp.
Qed.

Lemma built_all_manifest (groups : list (string * string)) (s : fs)
    (g : string * string) :
  g ∈ groups →
  ∃ j, built_all faulty src dst m0 groups s !! manifest_path dst g.1
       = Some (File (Document j)).
Proof.
  induction groups as [|g' groups IH] using rev_ind; intros Hg.
  { by apply elem_of_nil in Hg. }
  rewrite built_all_snoc.
  destruct (decide (imageset_dir dst g'.1 `prefix_of` manifest_path dst g.1)) as [Hp|Hp].
  - apply imageset_dir_inj in Hp as <-. eexists. apply built_manifest.
  - rewrite built_outside by done. apply IH.
    apply elem_of_app in Hg as [?|Hg]; [done|].
    apply list_elem_of_singleton in Hg as ->. destruct Hp. by apply prefix_app_r.
Qed.

(** What the last group of a base name built is what the run leaves in its
    directory. *)
Lemma built_all_last (l1 l2 : list (string * string)) (g : string * string)
    (s : fs) (k : path) :
  (∀ g', g' ∈ l2 → g'.1 ≠ g.1) →
  imageset_dir dst g.1 `prefix_of` k →
  built_all faulty src dst m0 (l1 ++ g :: l2) s !! k
  = built faulty src dst m0 g.1 g.2 (built_all faulty src dst m0 l1 s) !! k.
Proof.
  intros Hl2 [q ->]. rewrite built_all_app. simpl.
  apply built_all_outside. intros g' Hg' Hp.
  apply imageset_dir_inj in Hp. by apply (Hl2 g').
Qed.

Lemma built_all_entries (groups : list (string * string)) (s : fs) (b n : string) :
  is_Some (built_all faulty src dst m0 groups s !! (imageset_dir dst b ++ [n])) →
  is_Some (s !! (imageset_dir dst b ++ [n])) ∨ n = "Contents.json" ∨
  ∃ e sc c, (b, e) ∈ groups ∧ sc ∈ scales ∧ n = variant_name b e sc ∧
            copied faulty src (imageset_dir dst b) m0 n = Some c.
Proof.
  induction groups as [|[b' e'] groups IH] using rev_ind; intros Hk; [by left|].
  rewrite built_all_snoc in Hk. simpl in Hk.
  assert (is_Some (built_all faulty src dst m0 groups s !! (imageset_dir dst b ++ [n])) →
          is_Some (s !! (imageset_dir dst b ++ [n])) ∨ n = "Contents.json" ∨
          ∃ e sc c, (b, e) ∈ groups ++ [(b', e')] ∧ sc ∈ scales ∧
                    n = variant_name b e sc ∧
                    copied faulty src (imageset_dir dst b) m0 n = Some c) as IH'.
  { intros H. destruct (IH H) as [?|[?|(e & sc & c & ? & ?)]]; [by left|by right; left|].
    right; right. exists e, sc, c. split; [|done]. apply elem_of_app. by left. }
  destruct (decide (imageset_dir dst b' `prefix_of` imageset_dir dst b ++ [n])) as [Hp|Hp].
  - apply imageset_dir_inj in Hp as ->.
    destruct (built_entry b e' n (built_all faulty src dst m0 groups s))
      as [[_ ->]|[Heq|(sc & c & Hin & Hn & Hc & _)]].
    + right. by left.
    + rewrite Heq in Hk. by apply IH'.
    + right; right. exists e', sc, c. split_and!; try done.
      apply elem_of_app. right. by apply list_elem_of_singleton.
  - rewrite built_outside in Hk by done. by apply IH'.
Qed.

End Run.

(** ** A run in which only copies fail *)

Lemma makedirs_from_total (pre rest : path) (m : fs) :
  is_dir m pre = true →
  (∀ r c, r `prefix_of` rest → m !! (pre ++ r) ≠ Some (File c)) →
  is_Some (makedirs_from pre rest m).
Proof.
  revert pre m. induction rest as [|n rest IH]; intros pre m Hpre Hnf; simpl; [eauto|].
  rewrite lookup_node_snoc.
  assert (∀ r, (pre ++ [n]) ++ r = pre ++ n :: r) as Has
    by (intros r; by rewrite <- app_assoc).
  destruct (m !! (pre ++ [n])) as [[|c]|] eqn:Hq.
  - apply IH; [by apply is_dir_lookup|].
    intros r c Hr. rewrite Has. apply Hnf. by apply prefix_cons.
  - destruct (Hnf [n] c); [|done]. by apply prefix_cons, prefix_nil.
  - rewrite Hpre. apply IH; [apply is_dir_lookup, lookup_insert_eq|].
    intros r c Hr. destruct (decide (pre ++ [n] = (pre ++ [n]) ++ r)) as [<-|Hne].
    + by rewrite lookup_insert_eq.
    + rewrite lookup_insert_ne by done. rewrite Has. apply Hnf. by apply prefix_cons.
Qed.

Lemma path_str_length (p : path) (c : string) :
  c ∈ p → String.length c < String.length (path_str p).
Proof.
  intros Hc. destruct p as [|a p]; [by apply elem_of_nil in Hc|].
  unfold path_str. revert Hc. generalize (a :: p). clear a p.
  intros p. induction p as [|a p IH]; intros Hc; [by apply elem_of_nil in Hc|].
  simpl. rewrite !append_length. simpl.
  apply elem_of_cons in Hc as [->|Hc]; [lia|]. specialize (IH Hc). lia.
Qed.

Lemma root_check_passes (root dst : path) :
  (get_project_root root ++ ["Sources"]) `prefix_of` dst →
  String.eqb (path_str dst) "" || bool_decide (path_str dst ∈ ["/"; "/"]) = false.
Proof.
  intros [q ->].
  assert (7 < String.length (path_str ((get_project_root root ++ ["Sources"]) ++ q)))
    as Hlen.
  { apply (path_str_length _ "Sources"). rewrite !elem_of_app.
    left; right. by apply list_elem_of_singleton. }
  destruct (path_str _) as [|a [|b s]]; simpl in Hlen; [lia..|]. 
  apply orb_false_intro; [done|]. apply bool_decide_eq_false.
  rewrite !elem_of_cons. intros [H|[H|H]]; try discriminate H.
  by apply elem_of_nil in H.
Qed.

Lemma base_names_ext (l1 l2 : list string) :
  (∀ f, f ∈ l1 ↔ f ∈ l2) → base_names (image_files l1) = base_names (image_files l2).
Proof.
  intros Hl. apply set_eq. intros g. rewrite !elem_of_base_names.
  split; intros (f & Hf & Hg); exists f; (split; [|done]);
    apply elem_of_image_files in Hf as [? ?]; apply elem_of_image_files;
    (split; [done|]); by apply Hl.
Qed.

Section CleanRun.
Context (faulty : syscall → bool) (root src dst : path) (m : fs).
Context (Hclean : clean_run faulty root src dst m).

Lemma clean_no_fault (call : syscall) :
  (∀ a b, call ≠ SysCopy a b) → faulty call = false.
Proof.
  intros Hne. destruct Hclean as (_ & _ & _ & _ & _ & Hf).
  destruct (faulty call) eqn:Hc; [|done].
  destruct (Hf _ Hc) as (a & b & ->). by destruct (Hne a b).
Qed.

Lemma clean_safe_rmtree :
  safe_rmtree faulty dst (get_project_root root ++ ["Sources"]) m
  = (true, outside dst m).
Proof.
  destruct Hclean as (Hwf & Hsrc & Hun & Hnf & Hdst & _).
  destruct (path_exists m dst) eqn:Hex.
  - destruct Hdst as [?|Hin]; [done|].
    unfold safe_rmtree. rewrite Hex. simpl.
    rewrite (root_check_passes root dst Hin).
    rewrite bool_decide_eq_true_2 by (by apply commonpath_prefix). simpl.
    unfold rmtree. rewrite clean_no_fault by done.
    unfold path_exists in Hex. destruct dst as [|a d] eqn:Hd; [done|].
    simpl in *. destruct (m !! (a :: d)) as [[|c]|] eqn:Hl; [done| |done].
    by destruct (Hnf (a :: d) c).
  - rewrite safe_rmtree_absent by done. f_equal.
    symmetry. apply wf_outside_absent; [done|]. by apply path_exists_None.
Qed.

Lemma clean_source_ne : src ≠ [].
Proof.
  destruct Hclean as (_ & _ & [Hsd _] & _). intros ->. apply Hsd, prefix_nil.
Qed.

(** The tree in which the imagesets are built. *)
Lemma clean_catalog :
  rebuild faulty src dst (outside dst m)
  = process faulty src dst (sorted (discovered src m)) true (catalog dst m) ∧
  tidy src dst m (catalog dst m) ∧
  catalog dst m !! (dst ++ ["Contents.json"]) = Some (File (Document root_contents)) ∧
  (∀ k, under dst k → k ≠ dst ++ ["Contents.json"] → catalog dst m !! k = None) ∧
  (∀ k, ¬ dst `prefix_of` k → ¬ k `prefix_of` dst → catalog dst m !! k = m !! k).
Proof.
  pose proof clean_source_ne as Hsne.
  destruct Hclean as (Hwf & Hsrc & Hun & Hnf & Hdst & _).
  pose proof Hun as [Hsd Hds].
  assert (is_Some (makedirs_from [] dst (outside dst m))) as [m1 Hmk].
  { apply makedirs_from_total; [done|]. intros r c Hr. simpl.
    rewrite lookup_outside. case_decide; [done|]. by apply Hnf. }
  assert (makedirs faulty dst (outside dst m) = Some m1) as Hmk'.
  { unfold makedirs. by rewrite clean_no_fault. }
  pose proof (makedirs_dirs_above _ _ _ _ Hmk') as Hd1.
  assert (∀ k, under dst k → m1 !! k = None) as Hunder1.
  { intros k Hk.
    destruct (makedirs_from_lookup _ _ _ _ Hmk k) as [->|(_ & _ & _ & Hp)].
    - rewrite lookup_outside. rewrite decide_True; [done|apply Hk].
    - by apply prefix_not_under in Hp. }
  assert (∀ k, ¬ dst `prefix_of` k → ¬ k `prefix_of` dst → m1 !! k = m !! k) as Hfar1.
  { intros k Hk1 Hk2.
    destruct (makedirs_from_lookup _ _ _ _ Hmk k) as [->|(_ & _ & _ & Hp)]; [|done].
    rewrite lookup_outside. by rewrite decide_False. }
  unfold catalog. rewrite Hmk. simpl.
  set (s := <[dst ++ ["Contents.json"] := File (Document root_contents)]> m1).
  assert (frame dst m1 s) as Hfr by apply frame_insert.
  assert (∀ k, ¬ dst `prefix_of` k → ¬ k `prefix_of` dst → s !! k = m !! k) as Hfar.
  { intros k Hk1 Hk2. rewrite Hfr by (by intros [? _]). by apply Hfar1. }
  assert (∀ k, under dst k → k ≠ dst ++ ["Contents.json"] → s !! k = None) as Hunder.
  { intros k Hk Hne. unfold s. rewrite lookup_insert_ne by done. by apply Hunder1. }
  assert (∀ v, s !! (src ++ [v]) = m !! (src ++ [v])) as Hsources.
  { intros v. apply Hfar.
    - intros Hp. apply prefix_snoc_inv in Hp as [Heq|Hp]; [|done].
      apply Hsd. rewrite Heq. by apply prefix_app_r.
    - intros Hp. apply Hsd. by eapply prefix_app_l. }
  assert (tidy src dst m s) as Htidy.
  { split_and!.
    - by eapply frame_dirs_above.
    - done.
    - intros b v. rewrite is_dir_snoc. rewrite Hunder; [done| |].
      + unfold imageset_dir. rewrite <- app_assoc. by apply under_app.
      + unfold imageset_dir. rewrite <- app_assoc. apply not_eq_sym, snoc_ne_snoc2.
    - intros b c. rewrite Hunder; [done|by apply under_app|].
      unfold imageset_dir. intros Heq. apply app_inv_head in Heq.
      injection Heq as Heq. by apply imageset_name_ne_manifest in Heq.
  }
  split_and!; try done.
  - unfold rebuild. rewrite Hmk'. rewrite write_json_snoc.
    rewrite clean_no_fault by done.
    rewrite (Hd1 dst) by done. rewrite is_dir_snoc.
    rewrite Hunder1 by (by apply under_app). simpl. fold s.
    assert (is_dir s src = true) as Hsdir.
    { unfold is_dir in *. rewrite lookup_node_ne in * by done.
      by rewrite Hfar. }
    assert (is_Some (listdir faulty src s)) as [listing Hls].
    { unfold listdir. rewrite clean_no_fault by done. rewrite Hsdir. eauto. }
    assert (is_Some (listdir no_faults src m)) as [listing0 Hls0].
    { unfold listdir. simpl. rewrite Hsrc. eauto. }
    rewrite Hls. unfold discovered. rewrite Hls0. simpl.
    f_equal. f_equal. apply base_names_ext. intros f.
    rewrite (elem_of_listdir _ _ _ _ _ Hls), (elem_of_listdir _ _ _ _ _ Hls0).
    by rewrite Hsources.
  - unfold s. apply lookup_insert_eq.
Qed.

(** A run in which only copies fail succeeds, and leaves the catalog with
    the imagesets of the discovered groups built in order. *)
Lemma clean_migrate :
  migrate_assets faulty root src dst m
  = (true, built_all faulty src dst m (sorted (discovered src m)) (catalog dst m)).
Proof.
  destruct clean_catalog as (Hrb & Htidy & _).
  unfold migrate_assets.
  destruct Hclean as (Hwf & Hsrc & Hun & Hnf & Hdst & Hf).
  rewrite (is_dir_exists _ _ Hsrc), Hsrc. simpl.
  rewrite clean_safe_rmtree, Hrb.
  apply process_tidy; try done.
  - intros p. by apply clean_no_fault.
  - intros p. by apply clean_no_fault.
Qed.

End CleanRun.

(** ** The imagesets a run leaves *)

(** The conditions of a clean run, in a form that can be computed on a
    given tree. *)
Lemma clean_run_check (faulty : syscall → bool) (root src dst : path) (m : fs) :
  map_Forall (λ k _, is_dir m (parent k) = true) m →
  is_dir m src = true →
  unrelated src dst →
  Forall (λ i, ∀ c, m !! take i dst ≠ Some (File c)) (seq 0 (S (length dst))) →
  path_exists m dst = false ∨ (get_project_root root ++ ["Sources"]) `prefix_of` dst →
  (∀ a, faulty (SysRmtree a) = false) →
  (∀ a, faulty (SysMakedirs a) = false) →
  (∀ a, faulty (SysOpenW a) = false) →
  (∀ a, faulty (SysListdir a) = false) →
  clean_run faulty root src dst m.
Proof.
  intros Hwf Hsrc Hun Hnf Hdst H1 H2 H3 H4. split_and!; try done.
  - by apply wf_check.
  - intros k c [q ->]. rewrite Forall_forall in Hnf.
    specialize (Hnf (length k)). rewrite take_app_length in Hnf. apply Hnf.
    apply elem_of_seq. rewrite length_app. lia.
  - intros [a|a|a|a|a b] Hc; [congruence..|eauto].
Qed.

Section Imagesets.
Context (faulty : syscall → bool) (root src dst : path) (m : fs).
Context (Hclean : clean_run faulty root src dst m).

Lemma clean_final_dir (g : string * string) :
  g ∈ discovered src m →
  (migrate_assets faulty root src dst m).2 !! imageset_dir dst g.1 = Some Dir.
Proof.
  intros Hg. rewrite (clean_migrate faulty root src dst m Hclean). simpl.
  apply built_all_dir. by apply sorted_elem_of.
Qed.

Lemma clean_final_manifest (g : string * string) :
  g ∈ discovered src m →
  ∃ j, (migrate_assets faulty root src dst m).2 !! manifest_path dst g.1
       = Some (File (Document j)).
Proof.
  intros Hg. rewrite (clean_migrate faulty root src dst m Hclean). simpl.
  apply built_all_manifest. by apply sorted_elem_of.
Qed.

Lemma clean_final_entries (b n : string) :
  is_Some ((migrate_assets faulty root src dst m).2 !! (imageset_dir dst b ++ [n])) →
  n = "Contents.json" ∨
  ∃ e sc c, (b, e) ∈ discovered src m ∧ sc ∈ scales ∧ n = variant_name b e sc ∧
            copied faulty src (imageset_dir dst b) m n = Some c.
Proof.
  rewrite (clean_migrate faulty root src dst m Hclean). simpl. intros Hk.
  destruct (clean_catalog faulty root src dst m Hclean) as (_ & _ & _ & Hunder & _).
  apply built_all_entries in Hk as [Hs|[?|(e & sc & c & Hg & ?)]].
  - rewrite Hunder in Hs; [by destruct Hs| |].
    + unfold imageset_dir. rewrite <- app_assoc. by apply under_app.
    + unfold imageset_dir. rewrite <- app_assoc. apply not_eq_sym, snoc_ne_snoc2.
  - by left.
  - right. exists e, sc, c. split; [|done]. by apply sorted_elem_of.
Qed.

End Imagesets.

(** C5 (as amended): in a run in which only copies may fail, every
    discovered group gets the directory [base.imageset] with a manifest in
    it, even if every copy fails; the directory holds nothing but the
    manifest and copies of variants of the groups with that base name, at
    most three for each; and groups with different base names have
    different directories. *)
Theorem every_group_gets_an_imageset (faulty : syscall → bool)
    (root src dst : path) (m : fs) (b e : string) :
  clean_run faulty root src dst m →
  (b, e) ∈ discovered src m →
  (migrate_assets faulty root src dst m).2 !! imageset_dir dst b = Some Dir ∧
  (∃ j, (migrate_assets faulty root src dst m).2 !! manifest_path dst b
        = Some (File (Document j))) ∧
  (∀ n, is_Some ((migrate_assets faulty root src dst m).2
                   !! (imageset_dir dst b ++ [n])) →
        n = "Contents.json" ∨
        ∃ e' sc, (b, e') ∈ discovered src m ∧ sc ∈ ["1x"; "2x"; "3x"] ∧
                 n = variant_name b e' sc) ∧
  (∀ b' e', (b', e') ∈ discovered src m → b' ≠ b →
            imageset_dir dst b' ≠ imageset_dir dst b).
Proof.
  intros Hclean Hg. split_and!.
  - by apply (clean_final_dir faulty root src dst m Hclean (b, e)).
  - by apply (clean_final_manifest faulty root src dst m Hclean (b, e)).
  - intros n Hn.
    destruct (clean_final_entries faulty root src dst m Hclean b n Hn)
      as [?|(e' & sc & c & ? & ? & ? & _)]; [by left|right; eauto].
  - intros b' e' _ Hne Heq. apply Hne.
    apply (imageset_dir_inj dst b' b []). rewrite app_nil_r, Heq. done.
Qed.

Lemma every_group_gets_an_imageset_witness :
  (migrate_assets copies_fail sample_root sample_source sample_dest
     (sample_tree [("a.png", File (Blob "A"))])).2 !! imageset_dir sample_dest "a"
  = Some Dir ∧
  (∃ j, (migrate_assets copies_fail sample_root sample_source sample_dest
           (sample_tree [("a.png", File (Blob "A"))])).2
          !! manifest_path sample_dest "a"
        = Some (File (Document j))) ∧
  (∀ n, is_Some ((migrate_assets copies_fail sample_root sample_source sample_dest
                    (sample_tree [("a.png", File (Blob "A"))])).2
                   !! (imageset_dir sample_dest "a" ++ [n])) →
        n = "Contents.json" ∨
        ∃ e' sc, ("a", e') ∈ discovered sample_source
                                 (sample_tree [("a.png", File (Blob "A"))]) ∧
                 sc ∈ ["1x"; "2x"; "3x"] ∧
                 n = variant_name "a" e' sc) ∧
  (∀ b' e', (b', e') ∈ discovered sample_source
                         (sample_tree [("a.png", File (Blob "A"))]) →
            b' ≠ "a" →
            imageset_dir sample_dest b' ≠ imageset_dir sample_dest "a").
Proof.
  apply (every_group_gets_an_imageset copies_fail sample_root sample_source
           sample_dest (sample_tree [("a.png", File (Blob "A"))]) "a" ".png").
  - apply clean_run_check.
    + apply (bool_decide_unpack _). vm_compute. exact I.
    + vm_compute. reflexivity.
    + split; intros [k Hk]; vm_compute in Hk; discriminate Hk.
    + repeat (constructor; [intros c; vm_compute; discriminate|]). constructor.
    + right. exists ["ClaudeUsagePro"; "Assets.xcassets"]. vm_compute. reflexivity.
    + intros a. reflexivity.
    + intros a. reflexivity.
    + intros a. reflexivity.
    + intros a. reflexivity.
  - apply (bool_decide_unpack _). vm_compute. exact I.
Defined.

(** C5 as stated fails: the groups [(a, .jpg)] and [(a, .png)] share the
    directory [a.imageset]; it ends up with four image files, and with the
    manifest of the [.png] group alone. *)
Lemma shared_imageset_counterexample :
  ("a", ".jpg") ∈ discovered sample_source
    (sample_tree [("a.png", File (Blob "1")); ("a@2x.png", File (Blob "2"));
                  ("a@3x.png", File (Blob "3")); ("a.jpg", File (Blob "j"))]) ∧
  ("a", ".png") ∈ discovered sample_source
    (sample_tree [("a.png", File (Blob "1")); ("a@2x.png", File (Blob "2"));
                  ("a@3x.png", File (Blob "3")); ("a.jpg", File (Blob "j"))]) ∧
  (λ n, (migrate_assets no_faults sample_root sample_source sample_dest
           (sample_tree [("a.png", File (Blob "1")); ("a@2x.png", File (Blob "2"));
                         ("a@3x.png", File (Blob "3")); ("a.jpg", File (Blob "j"))])).2
          !! (imageset_dir sample_dest "a" ++ [n]))
    <$> ["a.png"; "a@2x.png"; "a@3x.png"; "a.jpg"; "Contents.json"]
  = [Some (File (Blob "1")); Some (File (Blob "2")); Some (File (Blob "3"));
     Some (File (Blob "j"));
     Some (File (Document (contents
       [image_entry "1x" (Some "a.png"); image_entry "2x" (Some "a@2x.png");
        image_entry "3x" (Some "a@3x.png")])))].
Proof.
  split_and!.
  - apply (bool_decide_unpack _). vm_compute. exact I.
  - apply (bool_decide_unpack _). vm_compute. exact I.
  - vm_compute. reflexivity.
Qed.

(** ** File names: stems, suffixes and scale suffixes *)

Lemma append_assoc (s t u : string) : (s +:+ t) +:+ u = s +:+ (t +:+ u).
Proof. induction s as [|a s IH]; [done|]. rewrite !append_cons. by rewrite IH. Qed.

Lemma rfind_dot_app (s t : string) (i : nat) :
  PyStr.rfind_dot t = Some i →
  PyStr.rfind_dot (s +:+ t) = Some (String.length s + i).
Proof.
  intros Ht. induction s as [|a s IH]; [done|].
  rewrite append_cons. simpl. by rewrite IH.
Qed.

Lemma substring_all (t : string) : String.substring 0 (String.length t) t = t.
Proof. induction t as [|a t IH]; [done|]. simpl. by rewrite IH. Qed.

Lemma substring_app_r (s t : string) :
  String.substring (String.length s) (String.length t) (s +:+ t) = t.
Proof.
  induction s as [|a s IH]; [apply substring_all|]. by rewrite append_cons.
Qed.

Lemma substring_app_l (s t : string) :
  String.substring 0 (String.length s) (s +:+ t) = s.
Proof.
  induction s as [|a s IH]; [by destruct t|]. rewrite append_cons. simpl.
  by rewrite IH.
Qed.

(** A name made of a non-empty stem and a suffix with a single dot, at its
    start, and at least one more character. *)
Lemma name_suffix (s t : string) :
  s ≠ "" → PyStr.rfind_dot t = Some 0 → 1 < String.length t →
  Pathlib.suffix (s +:+ t) = t ∧ Pathlib.stem (s +:+ t) = s.
Proof.
  intros Hs Ht Hlen. unfold Pathlib.suffix, Pathlib.stem.
  rewrite (rfind_dot_app s t 0 Ht), append_length, Nat.add_0_r.
  assert (0 < String.length s) by (destruct s; [done|simpl; lia]).
  replace (0 <? String.length s) with true by (symmetry; by apply Nat.ltb_lt).
  replace (String.length s <? String.length s + String.length t - 1) with true
    by (symmetry; apply Nat.ltb_lt; lia).
  simpl. replace (String.length s + String.length t - String.length s)
    with (String.length t) by lia.
  by rewrite substring_app_r, substring_app_l.
Qed.

Lemma endswith_cons (a : ascii) (s t : string) :
  PyStr.endswith (String a s) t
  = String.eqb (String a s) t || PyStr.endswith s t.
Proof. reflexivity. Qed.

Lemma endswith_app (s t : string) : PyStr.endswith (s +:+ t) t = true.
Proof.
  induction s as [|a s IH].
  - rewrite append_nil_l. destruct t as [|a t]; [done|].
    by rewrite endswith_cons, String.eqb_refl.
  - by rewrite append_cons, endswith_cons, IH, orb_true_r.
Qed.

Lemma endswith_inv (s t : string) :
  PyStr.endswith s t = true → ∃ p, s = p +:+ t.
Proof.
  induction s as [|a s IH].
  - intros H. exists "". by destruct t.
  - rewrite endswith_cons.
    intros [H%String.eqb_eq|H]%orb_true_iff; [by exists ""|].
    destruct (IH H) as [p ->]. by exists (String a p).
Qed.

Lemma endswith_3x_not_2x (s : string) : PyStr.endswith (s +:+ "@3x") "@2x" = false.
Proof.
  destruct (PyStr.endswith (s +:+ "@3x") "@2x") eqn:H; [|done].
  apply endswith_inv in H as [p H]. apply (f_equal String.list_ascii_of_string) in H.
  rewrite !list_ascii_append in H. apply (f_equal reverse) in H.
  rewrite !reverse_app in H. vm_compute in H. discriminate H.
Qed.

Lemma drop_end_app (s t : string) (k : nat) :
  String.length t = k → PyStr.drop_end k (s +:+ t) = s.
Proof.
  intros <-. unfold PyStr.drop_end. rewrite append_length.
  replace (String.length s + String.length t - String.length t)
    with (String.length s) by lia.
  apply substring_app_l.
Qed.

(** The three variants of one image fall into one group. *)
Lemma group_of_variants (b : string) :
  b ≠ "" → PyStr.endswith b "@2x" = false → PyStr.endswith b "@3x" = false →
  group_of (b +:+ ".png") = (b, ".png") ∧
  group_of (b +:+ "@2x.png") = (b, ".png") ∧
  group_of (b +:+ "@3x.png") = (b, ".png").
Proof.
  intros Hb H2 H3. unfold group_of. split_and!.
  - destruct (name_suffix b ".png") as [-> ->]; [done|done|simpl; lia|].
    simpl. by rewrite H2, H3.
  - change (b +:+ "@2x.png") with (b +:+ ("@2x" +:+ ".png")).
    rewrite <- append_assoc.
    destruct (name_suffix (b +:+ "@2x") ".png") as [-> ->];
      [by destruct b|done|simpl; lia|].
    simpl. rewrite endswith_app. by rewrite (drop_end_app b "@2x" 3).
  - change (b +:+ "@3x.png") with (b +:+ ("@3x" +:+ ".png")).
    rewrite <- append_assoc.
    destruct (name_suffix (b +:+ "@3x") ".png") as [-> ->];
      [by destruct b|done|simpl; lia|].
    simpl. rewrite endswith_3x_not_2x, endswith_app.
    by rewrite (drop_end_app b "@3x" 3).
Qed.

(** ** The extension [.png] comes last *)

Lemma lower_ascii_cases (c : ascii) :
  c = PyStr.lower_ascii c ∨
  c = ascii_of_N (N_of_ascii (PyStr.lower_ascii c) - 32).
Proof.
  destruct c as [[] [] [] [] [] [] [] []]; vm_compute; auto.
Qed.

Lemma png_is_last (e : string) :
  PyStr.lower e ∈ image_extensions → String.le e ".png".
Proof.
  unfold image_extensions. rewrite !elem_of_cons, elem_of_nil.
  intros [H|[H|[H|[]]]];
    repeat (destruct e as [|? e]; [discriminate H|];
            simpl in H; injection H as ? H);
    (destruct e; [|discriminate H]);
    repeat match goal with
           | c : ascii, Hc : PyStr.lower_ascii ?c = _ |- _ =>
               destruct (lower_ascii_cases c) as [Hc'|Hc'];
               rewrite Hc in Hc'; vm_compute in Hc'; subst c; clear Hc
           end;
    vm_compute; exact I.
Qed.

(** ** The last group of a base name *)

Lemma elem_of_discovered (src : path) (m : fs) (g : string * string) :
  is_dir m src = true →
  g ∈ discovered src m ↔
  ∃ f, is_Some (m !! (src ++ [f])) ∧
       PyStr.lower (Pathlib.suffix f) ∈ image_extensions ∧
       group_of f = g.
Proof.
  intros Hsrc. unfold discovered.
  assert (is_Some (listdir no_faults src m)) as [listing Hls].
  { unfold listdir. simpl. rewrite Hsrc. eauto. }
  rewrite Hls. simpl. rewrite elem_of_base_names. split.
  - intros (f & Hf & Hg). apply elem_of_image_files in Hf as [Hext Hf].
    exists f. split_and!; [|done..]. by eapply elem_of_listdir.
  - intros (f & Hf & Hext & Hg). exists f. split; [|done].
    apply elem_of_image_files. split; [done|]. by eapply elem_of_listdir.
Qed.

Lemma discovered_extension (src : path) (m : fs) (g : string * string) :
  is_dir m src = true → g ∈ discovered src m →
  PyStr.lower g.2 ∈ image_extensions.
Proof.
  intros Hsrc Hg. apply elem_of_discovered in Hg as (f & _ & Hext & <-); done.
Qed.

Section LastGroup.
Context (faulty : syscall → bool) (root src dst : path) (m : fs).
Context (Hclean : clean_run faulty root src dst m).

(** What the run leaves in the directory of a base name is what the build
    of its greatest group left there. *)
Lemma clean_last_group (g : string * string) :
  g ∈ discovered src m →
  (∀ g', g' ∈ discovered src m → g'.1 = g.1 → tuple_le g' g) →
  ∃ s, ∀ k, imageset_dir dst g.1 `prefix_of` k →
            (migrate_assets faulty root src dst m).2 !! k
            = built faulty src dst m g.1 g.2 s !! k.
Proof.
  intros Hg Hmax. rewrite (clean_migrate faulty root src dst m Hclean). simpl.
  pose proof (sorted_StronglySorted (discovered src m)) as Hsorted.
  pose proof (sorted_NoDup (discovered src m)) as Hnd.
  assert (g ∈ sorted (discovered src m)) as Hin by (by apply sorted_elem_of).
  apply list_elem_of_split in Hin as (l1 & l2 & Heq).
  rewrite Heq in Hsorted, Hnd |- *.
  exists (built_all faulty src dst m l1 (catalog dst m)). intros k Hk.
  apply built_all_last; [|done].
  intros g' Hg' Hbase.
  apply NoDup_app in Hnd as (_ & _ & Hnd). apply NoDup_cons in Hnd as [Hnot _].
  apply Hnot. replace g with g'; [done|].
  apply (anti_symm tuple_le).
  - apply Hmax; [|done]. apply sorted_elem_of. rewrite Heq.
    apply elem_of_app. right. by right.
  - apply StronglySorted_app_1_r in Hsorted.
    apply StronglySorted_inv in Hsorted as [_ Hall].
    rewrite Forall_forall in Hall. by apply Hall.
Qed.

End LastGroup.

Lemma png_name_ne_manifest (s : string) : s +:+ ".png" ≠ "Contents.json".
Proof.
  intros H. apply (f_equal String.list_ascii_of_string) in H.
  rewrite list_ascii_append in H. apply (f_equal reverse) in H.
  rewrite reverse_app in H. vm_compute in H. discriminate H.
Qed.

Lemma copied_file (faulty : syscall → bool) (src imgdir : path) (m : fs)
    (v : string) (c : content) :
  m !! (src ++ [v]) = Some (File c) →
  faulty (SysCopy (src ++ [v]) (imgdir ++ [v])) = false →
  copied faulty src imgdir m v = Some c.
Proof. intros Hm Hf. unfold copied. by rewrite Hm, Hf. Qed.

(** C6: the stems [b], [b@2x] and [b@3x] all give the base name [b], and when
    the source holds [b.png], [b@2x.png] and [b@3x.png] as regular files
    whose copies do not fail, a run in which only copies may fail leaves the
    directory [b.imageset], whose manifest has the three entries, each with
    its file name, and which holds the three files with the bytes of the
    sources. *)
Theorem scale_variants_collapse (faulty : syscall → bool) (root src dst : path)
    (m : fs) (b : string) (c1 c2 c3 : content) :
  clean_run faulty root src dst m →
  b ≠ "" → PyStr.endswith b "@2x" = false → PyStr.endswith b "@3x" = false →
  m !! (src ++ [b +:+ ".png"]) = Some (File c1) →
  m !! (src ++ [b +:+ "@2x.png"]) = Some (File c2) →
  m !! (src ++ [b +:+ "@3x.png"]) = Some (File c3) →
  (∀ v, faulty (SysCopy (src ++ [v]) (imageset_dir dst b ++ [v])) = false) →
  (group_of (b +:+ ".png") = (b, ".png") ∧
   group_of (b +:+ "@2x.png") = (b, ".png") ∧
   group_of (b +:+ "@3x.png") = (b, ".png")) ∧
  (migrate_assets faulty root src dst m).2 !! imageset_dir dst b = Some Dir ∧
  (migrate_assets faulty root src dst m).2 !! manifest_path dst b
  = Some (File (Document (contents
      [image_entry "1x" (Some (b +:+ ".png"));
       image_entry "2x" (Some (b +:+ "@2x.png"));
       image_entry "3x" (Some (b +:+ "@3x.png"))]))) ∧
  (migrate_assets faulty root src dst m).2 !! (imageset_dir dst b ++ [b +:+ ".png"])
  = Some (File c1) ∧
  (migrate_assets faulty root src dst m).2 !! (imageset_dir dst b ++ [b +:+ "@2x.png"])
  = Some (File c2) ∧
  (migrate_assets faulty root src dst m).2 !! (imageset_dir dst b ++ [b +:+ "@3x.png"])
  = Some (File c3).
Proof.
  intros Hclean Hb H2 H3 Hf1 Hf2 Hf3 Hok.
  pose proof (group_of_variants b Hb H2 H3) as Hgroups.
  split; [done|].
  pose proof Hclean as (_ & Hsrc & _).
  assert ((b, ".png") ∈ discovered src m) as Hg.
  { apply elem_of_discovered; [done|]. exists (b +:+ ".png").
    split_and!; [by rewrite Hf1| |apply Hgroups].
    destruct (name_suffix b ".png") as [-> _]; [done|done|simpl; lia|].
    vm_compute. left. }
  destruct (clean_last_group faulty root src dst m Hclean (b, ".png") Hg) as [s Hlast].
  { intros [b' e'] Hg' Hbase. simpl in Hbase. subst b'. unfold tuple_le. simpl.
    rewrite decide_True by done.
    apply png_is_last. by apply (discovered_extension src m (b, e')). }
  simpl in Hlast.
  assert (copied faulty src (imageset_dir dst b) m (variant_name b ".png" "1x") = Some c1)
    as Hc1 by (by apply copied_file).
  assert (copied faulty src (imageset_dir dst b) m (variant_name b ".png" "2x") = Some c2)
    as Hc2 by (by apply copied_file).
  assert (copied faulty src (imageset_dir dst b) m (variant_name b ".png" "3x") = Some c3)
    as Hc3 by (by apply copied_file).
  split_and!.
  - rewrite Hlast by done. apply built_dir.
  - rewrite Hlast by (by apply prefix_app_r). rewrite built_manifest.
    unfold manifest_of, scales. simpl. unfold entry_of. by rewrite Hc1, Hc2, Hc3.
  - rewrite Hlast by (by apply prefix_app_r).
    apply (built_copied faulty src dst m b ".png" "1x"); [left| |done].
    apply png_name_ne_manifest.
  - rewrite Hlast by (by apply prefix_app_r).
    apply (built_copied faulty src dst m b ".png" "2x"); [right; left| |done].
    change (variant_name b ".png" "2x") with (b +:+ ("@2x" +:+ ".png")).
    rewrite <- append_assoc. apply png_name_ne_manifest.
  - rewrite Hlast by (by apply prefix_app_r).
    apply (built_copied faulty src dst m b ".png" "3x"); [right; right; left| |done].
    change (variant_name b ".png" "3x") with (b +:+ ("@3x" +:+ ".png")).
    rewrite <- append_assoc. apply png_name_ne_manifest.
Qed.

Lemma scale_variants_collapse_witness :
  (group_of ("x" +:+ ".png") = ("x", ".png") ∧
   group_of ("x" +:+ "@2x.png") = ("x", ".png") ∧
   group_of ("x" +:+ "@3x.png") = ("x", ".png")) ∧
  (migrate_assets no_faults sample_root sample_source sample_dest
     (sample_tree [("x.png", File (Blob "1")); ("x@2x.png", File (Blob "2"));
                   ("x@3x.png", File (Blob "3")); ("x.jpg", File (Blob "j"));
                   ("notes.txt", File (Blob "n"))])).2
    !! imageset_dir sample_dest "x" = Some Dir ∧
  (migrate_assets no_faults sample_root sample_source sample_dest
     (sample_tree [("x.png", File (Blob "1")); ("x@2x.png", File (Blob "2"));
                   ("x@3x.png", File (Blob "3")); ("x.jpg", File (Blob "j"));
                   ("notes.txt", File (Blob "n"))])).2
    !! manifest_path sample_dest "x"
  = Some (File (Document (contents
      [image_entry "1x" (Some ("x" +:+ ".png"));
       image_entry "2x" (Some ("x" +:+ "@2x.png"));
       image_entry "3x" (Some ("x" +:+ "@3x.png"))]))) ∧
  (migrate_assets no_faults sample_root sample_source sample_dest
     (sample_tree [("x.png", File (Blob "1")); ("x@2x.png", File (Blob "2"));
                   ("x@3x.png", File (Blob "3")); ("x.jpg", File (Blob "j"));
                   ("notes.txt", File (Blob "n"))])).2
    !! (imageset_dir sample_dest "x" ++ ["x" +:+ ".png"])
  = Some (File (Blob "1")) ∧
  (migrate_assets no_faults sample_root sample_source sample_dest
     (sample_tree [("x.png", File (Blob "1")); ("x@2x.png", File (Blob "2"));
                   ("x@3x.png", File (Blob "3")); ("x.jpg", File (Blob "j"));
                   ("notes.txt", File (Blob "n"))])).2
    !! (imageset_dir sample_dest "x" ++ ["x" +:+ "@2x.png"])
  = Some (File (Blob "2")) ∧
  (migrate_assets no_faults sample_root sample_source sample_dest
     (sample_tree [("x.png", File (Blob "1")); ("x@2x.png", File (Blob "2"));
                   ("x@3x.png", File (Blob "3")); ("x.jpg", File (Blob "j"));
                   ("notes.txt", File (Blob "n"))])).2
    !! (imageset_dir sample_dest "x" ++ ["x" +:+ "@3x.png"])
  = Some (File (Blob "3")).
Proof.
  apply (scale_variants_collapse no_faults sample_root sample_source sample_dest
           (sample_tree [("x.png", File (Blob "1")); ("x@2x.png", File (Blob "2"));
                         ("x@3x.png", File (Blob "3")); ("x.jpg", File (Blob "j"));
                         ("notes.txt", File (Blob "n"))])
           "x" (Blob "1") (Blob "2") (Blob "3")).
  - apply clean_run_check.
    + apply (bool_decide_unpack _). vm_compute. exact I.
    + vm_compute. reflexivity.
    + split; intros [k Hk]; vm_compute in Hk; discriminate Hk.
    + repeat (constructor; [intros c; vm_compute; discriminate|]). constructor.
    + right. exists ["ClaudeUsagePro"; "Assets.xcassets"]. vm_compute. reflexivity.
    + intros a. reflexivity.
    + intros a. reflexivity.
    + intros a. reflexivity.
    + intros a. reflexivity.
  - discriminate.
  - reflexivity.
  - reflexivity.
  - vm_compute. reflexivity.
  - vm_compute. reflexivity.
  - vm_compute. reflexivity.
  - intros v. reflexivity.
Defined.

(** ** A failing copy and the other groups *)

Section TwoOracles.
Context (f f' : syscall → bool) (src dst : path) (m0 : fs).


Lemma put_variants_agree (imgdir : path) (b e : string) (scs : list string)
    (s s' : fs) (k : path) :
  s !! k = s' !! k →
  foldl (put_variant f src imgdir m0 b e) s scs !! k
  = foldl (put_variant f src imgdir m0 b e) s' scs !! k.
Proof.
  revert s s'. induction scs as [|sc scs IH]; intros s s' Hk; [done|].
  simpl. apply IH. unfold put_variant.
  destruct (copied f src imgdir m0 _); [|done].
  rewrite !lookup_insert. by case_decide.
Qed.

Lemma built_agree (b e : string) (s s' : fs) (k : path) :
  s !! k = s' !! k →
  built f src dst m0 b e s !! k = built f src dst m0 b e s' !! k.
Proof.
  intros Hk. unfold built. rewrite !lookup_insert. case_decide; [done|].
  apply put_variants_agree. rewrite !lookup_insert. by case_decide.
Qed.


End TwoOracles.






(** ** Running the migration again *)

Lemma makedirs_from_cons (pre : path) (n : string) (rest : path) (m : fs) :
  makedirs_from pre (n :: rest) m
  = match lookup_node m (pre ++ [n]) with
    | Some Dir => makedirs_from (pre ++ [n]) rest m
    | Some (File _) => None
    | None =>
        if is_dir m pre
        then makedirs_from (pre ++ [n]) rest (<[pre ++ [n] := Dir]> m)
        else None
    end.
Proof. reflexivity. Qed.

Lemma makedirs_from_redo (pre rest : path) (m s1 : fs) :
  rest ≠ [] →
  makedirs_from pre rest m = Some s1 →
  m !! (pre ++ rest) = None →
  makedirs_from pre rest (delete (pre ++ rest) s1) = Some s1.
Proof.
  revert pre m. induction rest as [|n rest IH]; intros pre m Hne Hmk Hnone; [done|].
  assert (pre ++ n :: rest = (pre ++ [n]) ++ rest) as Has by (by rewrite <- app_assoc).
  rewrite makedirs_from_cons in Hmk |- *. rewrite lookup_node_snoc in Hmk |- *.
  destruct rest as [|n' rest].
  - rewrite Hnone in Hmk.
    destruct (is_dir m pre) eqn:Hpre; [|done]. simpl in Hmk. injection Hmk as <-.
    rewrite delete_insert_eq, delete_id by done.
    by rewrite Hnone, Hpre.
  - assert ((pre ++ [n]) ≠ pre ++ n :: n' :: rest) as Hq.
    { intros Heq. apply (f_equal length) in Heq. rewrite !length_app in Heq.
      simpl in Heq. lia. }
    rewrite lookup_delete_ne by done.
    destruct (m !! (pre ++ [n])) as [[|c]|] eqn:Hl; [| done |].
    + rewrite (makedirs_from_keeps _ _ _ _ _ _ Hmk Hl).
      rewrite Has. eapply IH; [done|exact Hmk|]. by rewrite <- Has.
    + destruct (is_dir m pre); [|done].
      rewrite (makedirs_from_keeps _ _ _ _ _ _ Hmk (lookup_insert_eq _ _ _)).
      rewrite Has. eapply IH; [done|exact Hmk|].
      rewrite <- Has. by rewrite lookup_insert_ne.
Qed.

Lemma outside_after_makedirs (dst : path) (m s1 : fs) :
  makedirs_from [] dst m = Some s1 →
  (∀ k, dst `prefix_of` k → m !! k = None) →
  outside dst s1 = delete dst s1.
Proof.
  intros Hmk Hnone. apply map_eq. intros k. rewrite lookup_outside.
  destruct (decide (k = dst)) as [->|Hne].
  - rewrite decide_True by done. by rewrite lookup_delete_eq.
  - rewrite lookup_delete_ne by done. case_decide as Hp; [|done].
    destruct (makedirs_from_lookup _ _ _ _ Hmk k) as [->|(_ & _ & _ & Hk)].
    + symmetry. by apply Hnone.
    + destruct Hne. by apply (anti_symm prefix).
Qed.

Lemma safe_rmtree_cases (faulty : syscall → bool) (p expected : path) (m : fs) :
  safe_rmtree faulty p expected m = (false, m) ∨
  (path_exists m p = false ∧ safe_rmtree faulty p expected m = (true, m)) ∨
  (is_dir m p = true ∧ p ≠ [] ∧ safe_rmtree faulty p expected m = (true, outside p m)).
Proof.
  unfold safe_rmtree. destruct (path_exists m p) eqn:Hex; simpl; [|by right; left].
  destruct (_ || _) eqn:Hroot; [by left|].
  destruct (negb _); [by left|].
  unfold rmtree. destruct (faulty _); [by left|].
  unfold is_dir. destruct (lookup_node m p) as [[|c]|]; [|by left..].
  right; right. split_and!; [done| |done]. intros ->. done.
Qed.

Lemma rebuild_same_dirs (faulty : syscall → bool) (src dst : path) (m1 m2 s : fs) :
  makedirs faulty dst m1 = Some s → makedirs faulty dst m2 = Some s →
  rebuild faulty src dst m1 = rebuild faulty src dst m2.
Proof. intros H1 H2. unfold rebuild. by rewrite H1, H2. Qed.

Section Again.
Context (faulty : syscall → bool) (root src dst : path).

Lemma migrate_assets_cases (m : fs) :
  wf m →
  (migrate_assets faulty root src dst m).2 = m ∨
  (dst ≠ [] ∧
   migrate_assets faulty root src dst m = rebuild faulty src dst (outside dst m)).
Proof.
  intros Hwf. unfold migrate_assets.
  destruct (negb (path_exists m src)); [by left|].
  destruct (negb (is_dir m src)); [by left|].
  destruct (safe_rmtree_cases faulty dst (get_project_root root ++ ["Sources"]) m)
    as [->|[[Hno ->]|(Hd & Hne & ->)]]; [by left| |by right].
  right. split.
  - intros ->. done.
  - f_equal. symmetry. apply wf_outside_absent; [done|]. by apply path_exists_None.
Qed.

Lemma rebuild_fixed (m : fs) :
  dst ≠ [] →
  (migrate_assets faulty root src dst (rebuild faulty src dst (outside dst m)).2).2
  = (rebuild faulty src dst (outside dst m)).2.
Proof.
  intros Hne.
  assert (lookup_node (outside dst m) dst = None) as Habs.
  { rewrite lookup_node_ne by done. rewrite lookup_outside. by rewrite decide_True. }
  destruct (makedirs faulty dst (outside dst m)) as [s1|] eqn:Hmk.
  - pose proof (rebuild_frame faulty src dst _ _ Hmk) as Hfr.
    pose proof (makedirs_dirs_above _ _ _ _ Hmk) as Hd.
    set (F := (rebuild faulty src dst (outside dst m)).2) in *.
    assert (is_dir F dst = true) as HdF.
    { rewrite (frame_is_dir dst s1 F); [by apply Hd|done|apply not_under_self]. }
    unfold migrate_assets.
    destruct (negb (path_exists F src)); [done|].
    destruct (negb (is_dir F src)); [done|].
    destruct (safe_rmtree_cases faulty dst (get_project_root root ++ ["Sources"]) F)
      as [->|[[Hno _]|(_ & _ & ->)]]; [done| |].
    { apply is_dir_exists in HdF. congruence. }
    rewrite (frame_outside dst s1 F Hfr).
    unfold makedirs in Hmk. destruct (faulty (SysMakedirs dst)) eqn:Hf; [done|].
    rewrite (outside_after_makedirs dst (outside dst m) s1 Hmk).
    2:{ intros k Hk. rewrite lookup_outside. by rewrite decide_True. }
    rewrite (rebuild_same_dirs faulty src dst (delete dst s1) (outside dst m) s1).
    + done.
    + unfold makedirs. rewrite Hf.
      apply (makedirs_from_redo [] dst (outside dst m)); [done|done|].
      simpl. by rewrite lookup_node_ne in Habs.
    + unfold makedirs. by rewrite Hf.
  - rewrite (rebuild_no_makedirs _ _ _ _ Hmk). simpl.
    unfold migrate_assets.
    destruct (negb (path_exists (outside dst m) src)); [done|].
    destruct (negb (is_dir (outside dst m) src)); [done|].
    rewrite safe_rmtree_absent by (by apply path_exists_None).
    by rewrite (rebuild_no_makedirs _ _ _ _ Hmk).
Qed.

End Again.

(** C8: run again on the tree it has just left, with the same oracle, the
    migration leaves that tree as it is; in particular the destination tree
    is the same after the second run as after the first. *)
Theorem migrate_assets_idempotent (faulty : syscall → bool) (root src dst : path)
    (m : fs) :
  wf m →
  (migrate_assets faulty root src dst
     (migrate_assets faulty root src dst m).2).2
  = (migrate_assets faulty root src dst m).2 ∧
  ∀ k, dst `prefix_of` k →
       (migrate_assets faulty root src dst
          (migrate_assets faulty root src dst m).2).2 !! k
       = (migrate_assets faulty root src dst m).2 !! k.
Proof.
  intros Hwf.
  assert ((migrate_assets faulty root src dst
             (migrate_assets faulty root src dst m).2).2
          = (migrate_assets faulty root src dst m).2) as Heq.
  { destruct (migrate_assets_cases faulty root src dst m Hwf) as [Hsame|[Hne Hrb]].
    - by rewrite !Hsame.
    - rewrite Hrb. by apply rebuild_fixed. }
  split; [done|]. intros k _. by rewrite Heq.
Qed.

Lemma migrate_assets_idempotent_witness :
  (migrate_assets no_faults sample_root sample_source sample_dest
     (migrate_assets no_faults sample_root sample_source sample_dest
        (sample_tree [("x.png", File (Blob "1")); ("x@2x.png", File (Blob "2"))])).2).2
  = (migrate_assets no_faults sample_root sample_source sample_dest
       (sample_tree [("x.png", File (Blob "1")); ("x@2x.png", File (Blob "2"))])).2 ∧
  ∀ k, sample_dest `prefix_of` k →
       (migrate_assets no_faults sample_root sample_source sample_dest
          (migrate_assets no_faults sample_root sample_source sample_dest
             (sample_tree [("x.png", File (Blob "1"));
                           ("x@2x.png", File (Blob "2"))])).2).2 !! k
       = (migrate_assets no_faults sample_root sample_source sample_dest
            (sample_tree [("x.png", File (Blob "1"));
                          ("x@2x.png", File (Blob "2"))])).2 !! k.
Proof.
  apply (migrate_assets_idempotent no_faults sample_root sample_source sample_dest
           (sample_tree [("x.png", File (Blob "1")); ("x@2x.png", File (Blob "2"))])).
  apply wf_check. apply (bool_decide_unpack _). vm_compute. exact I.
Defined.

(** * Further properties of the program *)

(** ** The guarded delete *)

(** The root test of [safe_rmtree] fires on the root only, when no
    component of the path is empty. *)
Lemma root_check (p : path) :
  "" ∉ p →
  String.eqb (path_str p) "" || bool_decide (path_str p ∈ ["/"; "/"])
  = bool_decide (p = []).
Proof.
  intros Hne. destruct p as [|c p]; [done|].
  rewrite (bool_decide_eq_false_2 (c :: p = [])) by done.
  assert (String.length c < String.length (path_str (c :: p))) as Hlen
    by (apply path_str_length; left).
  assert (c ≠ "") as Hc by (intros ->; apply Hne; left).
  destruct c as [|a c]; [done|].
  destruct (path_str _) as [|x [|y s]]; simpl in Hlen; [lia..|].
  apply orb_false_intro; [done|]. apply bool_decide_eq_false.
  rewrite !elem_of_cons. intros [H|[H|H]]; try discriminate H.
  by apply elem_of_nil in H.
Qed.

(** X1: [safe_rmtree] returns [True] exactly when the path does not exist, or is
    a directory other than the root that lies in the expected parent (or is
    the expected parent itself) and whose removal does not fail.  It then
    leaves nothing at or below the path and everything else as it was; when
    it returns [False] without a failure of the removal itself, the tree is
    as it was. *)
Theorem safe_rmtree_exact (faulty : syscall → bool) (p expected : path) (m : fs) :
  "" ∉ p →
  wf m →
  ((safe_rmtree faulty p expected m).1 = true ↔
   path_exists m p = false ∨
   (p ≠ [] ∧ expected `prefix_of` p ∧ is_dir m p = true ∧
    faulty (SysRmtree p) = false)) ∧
  ((safe_rmtree faulty p expected m).1 = true →
   (safe_rmtree faulty p expected m).2 = outside p m ∧
   (∀ k, p `prefix_of` k → (safe_rmtree faulty p expected m).2 !! k = None) ∧
   (∀ k, ¬ p `prefix_of` k → (safe_rmtree faulty p expected m).2 !! k = m !! k)) ∧
  ((safe_rmtree faulty p expected m).1 = false →
   faulty (SysRmtree p) = false →
   (safe_rmtree faulty p expected m).2 = m).
Proof.
  intros Hne Hwf.
  assert (∀ k, p `prefix_of` k → outside p m !! k = None) as Hin
    by (intros k Hk; rewrite lookup_outside; by rewrite decide_True).
  assert (∀ k, ¬ p `prefix_of` k → outside p m !! k = m !! k) as Hout
    by (intros k Hk; rewrite lookup_outside; by rewrite decide_False).
  unfold safe_rmtree. destruct (path_exists m p) eqn:Hex; simpl.
  2:{ assert (outside p m = m) as Heq
        by (apply wf_outside_absent; [done|by apply path_exists_None]).
      split_and!; [split; [by left|done]| |done].
      intros _. split_and!; [done| |done].
      intros k Hk. rewrite <- Heq. by apply Hin. }
  rewrite (root_check p Hne). case_bool_decide as Hroot; simpl.
  { split_and!; [|done..]. split; [done|]. intros [?|(? & _)]; done. }
  case_bool_decide as Hpar; simpl.
  2:{ split_and!; [|done..]. split; [done|].
      intros [?|(_ & Hp & _)]; [done|]. by apply commonpath_prefix in Hp. }
  apply commonpath_prefix in Hpar.
  unfold rmtree, is_dir. destruct (faulty (SysRmtree p)) eqn:Hf; simpl.
  { split_and!; [|done..]. split; [done|]. intros [?|(_ & _ & _ & ?)]; done. }
  destruct (lookup_node m p) as [[|c]|] eqn:Hl; simpl.
  - split_and!; [split; [by right|done]|done|done].
  - split_and!; [|done..]. split; [done|]. intros [?|(_ & _ & ? & _)]; done.
  - split_and!; [|done..]. split; [done|]. intros [?|(_ & _ & ? & _)]; done.
Qed.

Lemma safe_rmtree_exact_witness :
  (safe_rmtree no_faults sample_dest (get_project_root sample_root ++ ["Sources"])
     (<[sample_dest ++ ["old.imageset"] := Dir]>
        (<[sample_dest := Dir]> (sample_tree [("x.png", File (Blob "1"))])))).1 = true ∧
  (safe_rmtree no_faults sample_dest (get_project_root sample_root ++ ["Sources"])
     (<[sample_dest ++ ["old.imageset"] := Dir]>
        (<[sample_dest := Dir]> (sample_tree [("x.png", File (Blob "1"))])))).2
    !! (sample_dest ++ ["old.imageset"]) = None.
Proof.
  pose proof (safe_rmtree_exact no_faults sample_dest
                (get_project_root sample_root ++ ["Sources"])
                (<[sample_dest ++ ["old.imageset"] := Dir]>
                   (<[sample_dest := Dir]> (sample_tree [("x.png", File (Blob "1"))]))))
    as H.
  destruct H as (Hiff & Htrue & _).
  - apply (bool_decide_unpack _). vm_compute. exact I.
  - apply wf_check. apply (bool_decide_unpack _). vm_compute. exact I.
  - assert ((safe_rmtree no_faults sample_dest
               (get_project_root sample_root ++ ["Sources"])
               (<[sample_dest ++ ["old.imageset"] := Dir]>
                  (<[sample_dest := Dir]>
                     (sample_tree [("x.png", File (Blob "1"))])))).1 = true) as Hok.
    { apply Hiff. right. split_and!.
      + done.
      + apply (bool_decide_unpack _). vm_compute. exact I.
      + vm_compute. reflexivity.
      + reflexivity. }
    split; [exact Hok|].
    destruct (Htrue Hok) as (_ & Hgone & _). apply Hgone.
    by apply prefix_app_r.
Defined.

(** ** What a run may touch *)

(** X2: whatever fails, [migrate_assets] changes nothing outside the destination
    tree except that it may create missing directories on the way down to
    the destination; in particular nothing outside the destination tree is
    ever deleted or overwritten. *)
Theorem migrate_assets_confined (faulty : syscall → bool) (root src dst : path)
    (m : fs) :
  (∀ k, ¬ dst `prefix_of` k →
        (migrate_assets faulty root src dst m).2 !! k = m !! k ∨
        (m !! k = None ∧
         (migrate_assets faulty root src dst m).2 !! k = Some Dir ∧
         k `prefix_of` dst)) ∧
  (∀ k x, ¬ dst `prefix_of` k → m !! k = Some x →
          (migrate_assets faulty root src dst m).2 !! k = Some x).
Proof.
  assert (∀ k, ¬ dst `prefix_of` k →
        (migrate_assets faulty root src dst m).2 !! k = m !! k ∨
        (m !! k = None ∧
         (migrate_assets faulty root src dst m).2 !! k = Some Dir ∧
         k `prefix_of` dst)) as Hmain.
  { intros k Hk. unfold migrate_assets.
    destruct (negb (path_exists m src)); [by left|].
    destruct (negb (is_dir m src)); [by left|].
    assert (∀ m0, m0 !! k = m !! k →
              (rebuild faulty src dst m0).2 !! k = m !! k ∨
              (m !! k = None ∧ (rebuild faulty src dst m0).2 !! k = Some Dir ∧
               k `prefix_of` dst)) as Hrb.
    { intros m0 H0. destruct (makedirs faulty dst m0) as [m1|] eqn:Hmk.
      - rewrite (rebuild_frame faulty src dst m0 m1 Hmk k) by (by intros [? _]).
        unfold makedirs in Hmk. destruct (faulty (SysMakedirs dst)); [done|].
        destruct (makedirs_from_lookup _ _ _ _ Hmk k) as [->|(Hn & Hd & _ & Hp)].
        + by left.
        + right. by rewrite <- H0.
      - rewrite (rebuild_no_makedirs _ _ _ _ Hmk). by left. }
    destruct (safe_rmtree_cases faulty dst (get_project_root root ++ ["Sources"]) m)
      as [->|[[_ ->]|(_ & _ & ->)]]; [by left|by apply Hrb|].
    apply Hrb. rewrite lookup_outside. by rewrite decide_False. }
  split; [done|].
  intros k x Hk Hx. destruct (Hmain k Hk) as [->|(Hn & _)]; congruence.
Qed.

(** X3: a destination that exists, passes the guard and is removed leaves no
    trace: the run is the run on the tree without the destination. *)
Theorem stale_destination_irrelevant (faulty : syscall → bool)
    (root src dst : path) (m : fs) :
  is_dir m src = true →
  is_dir m dst = true →
  (get_project_root root ++ ["Sources"]) `prefix_of` dst →
  faulty (SysRmtree dst) = false →
  ¬ dst `prefix_of` src →
  migrate_assets faulty root src dst m
  = migrate_assets faulty root src dst (outside dst m).
Proof.
  intros Hs Hd Hin Hf Hsrc.
  assert (dst ≠ []) as Hne.
  { intros ->. destruct Hin as [q Hq]. by destruct (get_project_root root). }
  assert (lookup_node (outside dst m) src = lookup_node m src) as Hl.
  { destruct src as [|a s]; [done|]. simpl. rewrite lookup_outside.
    by rewrite decide_False. }
  apply is_dir_Some in Hs.
  unfold migrate_assets, path_exists, is_dir. rewrite Hl, Hs. simpl.
  assert (safe_rmtree faulty dst (get_project_root root ++ ["Sources"]) m
          = (true, outside dst m)) as ->.
  { unfold safe_rmtree. rewrite (is_dir_exists _ _ Hd). simpl.
    rewrite (root_check_passes root dst Hin).
    rewrite bool_decide_eq_true_2 by (by apply commonpath_prefix). simpl.
    unfold rmtree. rewrite Hf. apply is_dir_Some in Hd. by rewrite Hd. }
  rewrite safe_rmtree_absent; [done|].
  apply path_exists_None. rewrite lookup_node_ne by done.
  rewrite lookup_outside. by rewrite decide_True.
Qed.

Lemma stale_destination_irrelevant_witness :
  migrate_assets no_faults sample_root sample_source sample_dest
    (<[sample_dest ++ ["old.imageset"] := Dir]>
       (<[sample_dest := Dir]> (sample_tree [("x.png", File (Blob "1"))])))
  = migrate_assets no_faults sample_root sample_source sample_dest
      (outside sample_dest
         (<[sample_dest ++ ["old.imageset"] := Dir]>
            (<[sample_dest := Dir]> (sample_tree [("x.png", File (Blob "1"))])))).
Proof.
  apply (stale_destination_irrelevant no_faults sample_root sample_source sample_dest).
  - vm_compute. reflexivity.
  - vm_compute. reflexivity.
  - apply (bool_decide_unpack _). vm_compute. exact I.
  - reflexivity.
  - apply (bool_decide_unpack _). vm_compute. exact I.
Defined.

(** ** Source and destination that overlap *)

Lemma safe_rmtree_accepts (faulty : syscall → bool) (root dst : path) (m : fs) :
  is_dir m dst = true →
  (get_project_root root ++ ["Sources"]) `prefix_of` dst →
  faulty (SysRmtree dst) = false →
  safe_rmtree faulty dst (get_project_root root ++ ["Sources"]) m
  = (true, outside dst m).
Proof.
  intros Hd Hin Hf. unfold safe_rmtree. rewrite (is_dir_exists _ _ Hd). simpl.
  rewrite (root_check_passes root dst Hin).
  rewrite bool_decide_eq_true_2 by (by apply commonpath_prefix). simpl.
  unfold rmtree. rewrite Hf. apply is_dir_Some in Hd. by rewrite Hd.
Qed.

Lemma expected_parent_not_root (root dst : path) :
  (get_project_root root ++ ["Sources"]) `prefix_of` dst → dst ≠ [].
Proof. intros [q Hq] ->. by destruct (get_project_root root). Qed.

(** In a well-formed tree every path above an entry is a directory. *)
Lemma wf_above (m : fs) (k q : path) :
  wf m → q ≠ [] → is_Some (m !! (k ++ q)) → lookup_node m k = Some Dir.
Proof.
  intros Hwf. induction q as [|n q IH] using rev_ind; [done|]. intros _ Hq.
  rewrite app_assoc in Hq. apply Hwf in Hq.
  destruct q as [|a q]; [by rewrite app_nil_r in Hq|].
  apply IH; [done|]. rewrite lookup_node_ne in Hq by (by destruct k).
  by rewrite Hq.
Qed.

Lemma makedirs_from_total_below (pre rest : path) (m : fs) :
  is_dir m pre = true →
  (∀ r c, r `prefix_of` rest → r ≠ [] → m !! (pre ++ r) ≠ Some (File c)) →
  is_Some (makedirs_from pre rest m).
Proof.
  revert pre m. induction rest as [|n rest IH]; intros pre m Hpre Hnf; simpl; [eauto|].
  rewrite lookup_node_snoc.
  assert (∀ r, (pre ++ [n]) ++ r = pre ++ n :: r) as Has
    by (intros r; by rewrite <- app_assoc).
  destruct (m !! (pre ++ [n])) as [[|c]|] eqn:Hq.
  - apply IH; [by apply is_dir_lookup|].
    intros r c Hr _. rewrite Has. apply Hnf; [by apply prefix_cons|done].
  - destruct (Hnf [n] c); [by apply prefix_cons, prefix_nil|done|done].
  - rewrite Hpre. apply IH; [apply is_dir_lookup, lookup_insert_eq|].
    intros r c Hr Hne. rewrite lookup_insert_ne.
    + rewrite Has. apply Hnf; [by apply prefix_cons|done].
    + intros Heq. apply Hne. rewrite <- (app_nil_r (pre ++ [n])) in Heq at 1.
      by apply app_inv_head in Heq.
Qed.

Lemma image_files_manifest_only (listing : list string) :
  (∀ n, n ∈ listing → n = "Contents.json") → image_files listing = [].
Proof.
  intros Hl. apply elem_of_nil_inv. intros f Hf.
  apply elem_of_image_files in Hf as [Hext Hin]. rewrite (Hl _ Hin) in Hext.
  revert Hext. apply (bool_decide_unpack _). vm_compute. exact I.
Qed.

Lemma sorted_empty : sorted ∅ = [].
Proof. unfold sorted. by rewrite elements_empty. Qed.

(** Rebuilding a destination that holds the source, from a tree with
    nothing at or below the destination. *)
Lemma rebuild_over_source (faulty : syscall → bool) (src dst : path) (m0 : fs) :
  (∀ k, dst `prefix_of` k → m0 !! k = None) →
  dst `prefix_of` src →
  (∀ k, under dst k →
        (rebuild faulty src dst m0).2 !! k = None ∨ k = dst ++ ["Contents.json"]) ∧
  (src = dst →
   is_Some (makedirs_from [] dst m0) →
   faulty (SysMakedirs dst) = false →
   faulty (SysOpenW (dst ++ ["Contents.json"])) = false →
   faulty (SysListdir dst) = false →
   (rebuild faulty src dst m0).1 = true).
Proof.
  intros Hgone Hsub.
  assert (∀ m1, makedirs faulty dst m0 = Some m1 → ∀ k, under dst k → m1 !! k = None)
    as Hunder1.
  { intros m1 Hmk k Hk. unfold makedirs in Hmk.
    destruct (faulty (SysMakedirs dst)); [done|].
    destruct (makedirs_from_lookup _ _ _ _ Hmk k) as [->|(_ & _ & _ & Hp)].
    - apply Hgone, Hk.
    - by apply prefix_not_under in Hp. }
  assert (∀ m2 listing,
            (∀ k, under dst k → m2 !! k = None ∨ k = dst ++ ["Contents.json"]) →
            (∀ k, under dst k → m2 !! k ≠ Some Dir) →
            listdir faulty src m2 = Some listing →
            src = dst ∧ image_files listing = []) as Hls.
  { intros m2 listing H2 Hnd Hl.
    assert (is_dir m2 src = true) as Hdir.
    { unfold listdir in Hl. destruct (faulty _); [done|]. by destruct (is_dir m2 src). }
    assert (src = dst) as ->.
    { destruct (decide (src = dst)) as [|Hne]; [done|].
      assert (under dst src) as Hu by (split; [done|done]).
      apply is_dir_Some in Hdir. rewrite lookup_node_ne in Hdir.
      2:{ intros ->. apply Hne. symmetry. by apply prefix_nil_inv. }
      by destruct (Hnd src Hu). }
    split; [done|]. apply image_files_manifest_only. intros n Hn.
    apply (elem_of_listdir _ _ _ _ _ Hl) in Hn as [x Hx].
    destruct (H2 (dst ++ [n])) as [?|Heq]; [by apply under_app|congruence|].
    apply app_inv_head in Heq. by injection Heq. }
  unfold rebuild.
  destruct (makedirs faulty dst m0) as [m1|] eqn:Hmk.
  2:{ split.
      - intros k Hk. left. apply Hgone, Hk.
      - intros _ Hsome Hf1 _ _. unfold makedirs in Hmk. rewrite Hf1 in Hmk.
        rewrite Hmk in Hsome. by destruct Hsome. }
  specialize (Hunder1 m1 eq_refl).
  pose proof (makedirs_dirs_above _ _ _ _ Hmk) as Hd1.
  rewrite write_json_snoc.
  rewrite (Hd1 dst) by done. rewrite is_dir_snoc.
  rewrite Hunder1 by (by apply under_app). simpl.
  destruct (faulty (SysOpenW (dst ++ ["Contents.json"]))) eqn:Hop.
  { split; [intros k Hk; left; by apply Hunder1|]. by intros _ _ _ ? _. }
  set (m2 := <[dst ++ ["Contents.json"] := File (Document root_contents)]> m1).
  assert (∀ k, under dst k → m2 !! k = None ∨ k = dst ++ ["Contents.json"]) as H2.
  { intros k Hk. destruct (decide (k = dst ++ ["Contents.json"])) as [|Hne]; [by right|].
    left. unfold m2. rewrite lookup_insert_ne by done. by apply Hunder1. }
  assert (∀ k, under dst k → m2 !! k ≠ Some Dir) as Hnd.
  { intros k Hk. destruct (decide (k = dst ++ ["Contents.json"])) as [->|Hne].
    - unfold m2. by rewrite lookup_insert_eq.
    - unfold m2. rewrite lookup_insert_ne by done. by rewrite Hunder1. }
  destruct (listdir faulty src m2) as [listing|] eqn:Hl.
  - destruct (Hls m2 listing H2 Hnd Hl) as [-> Himg]. rewrite Himg.
    unfold base_names. simpl. rewrite sorted_empty. simpl. done.
  - split; [done|]. intros -> _ _ _ Hf3. exfalso.
    unfold listdir in Hl. rewrite Hf3 in Hl.
    assert (is_dir m2 dst = true) as Hd2.
    { rewrite (frame_is_dir dst m1 m2); [by apply Hd1|apply frame_insert|].
      apply not_under_self. }
    by rewrite Hd2 in Hl.
Qed.

(** X4: when the source directory is the destination or lies inside it, and
    the destination passes the guard and is removed, nothing that was in the
    source directory is left: the only entry the run may leave below the
    source is the root manifest.  When source and destination are the same
    directory and no call fails, the run even reports success. *)
Theorem source_inside_destination_is_wiped (faulty : syscall → bool)
    (root src dst : path) (m : fs) :
  is_dir m src = true →
  is_dir m dst = true →
  (get_project_root root ++ ["Sources"]) `prefix_of` dst →
  faulty (SysRmtree dst) = false →
  dst `prefix_of` src →
  (∀ k, under src k →
        (migrate_assets faulty root src dst m).2 !! k = None ∨
        k = dst ++ ["Contents.json"]) ∧
  (src = dst → wf m →
   faulty (SysMakedirs dst) = false →
   faulty (SysOpenW (dst ++ ["Contents.json"])) = false →
   faulty (SysListdir dst) = false →
   (migrate_assets faulty root src dst m).1 = true).
Proof.
  intros Hs Hd Hin Hf Hsub.
  pose proof (expected_parent_not_root _ _ Hin) as Hne.
  assert (migrate_assets faulty root src dst m
          = rebuild faulty src dst (outside dst m)) as ->.
  { unfold migrate_assets. rewrite (is_dir_exists _ _ Hs), Hs. simpl.
    by rewrite safe_rmtree_accepts. }
  assert (∀ k, dst `prefix_of` k → outside dst m !! k = None) as Hgone
    by (intros k Hk; rewrite lookup_outside; by rewrite decide_True).
  destruct (rebuild_over_source faulty src dst (outside dst m) Hgone Hsub)
    as [Hwipe Hok].
  split.
  - intros k Hk. apply Hwipe. split; [by etrans; [|apply Hk]|].
    intros ->. destruct Hk as [Hk1 Hk2]. apply Hk2. by apply (anti_symm prefix).
  - intros Heq Hwf Hf1 Hf2 Hf3. apply Hok; try done.
    apply makedirs_from_total_below; [done|]. intros r c Hr Hrne. simpl.
    rewrite lookup_outside. case_decide as Hp; [done|].
    destruct Hr as [q Hq]. destruct q as [|a q].
    { rewrite app_nil_r in Hq. subst r. by destruct Hp. }
    intros Hfile.
    assert (lookup_node m r = Some Dir) as Hdir.
    { apply (wf_above m r (a :: q)); [done|done|]. rewrite <- Hq.
      apply is_dir_Some in Hd. rewrite lookup_node_ne in Hd by done.
      by rewrite Hd. }
    rewrite lookup_node_ne in Hdir by done. congruence.
Qed.

Lemma source_inside_destination_is_wiped_witness :
  (migrate_assets no_faults sample_root sample_source sample_source
     (sample_tree [("x.png", File (Blob "1"))])).2 !! (sample_source ++ ["x.png"])
  = None ∧
  (migrate_assets no_faults sample_root sample_source sample_source
     (sample_tree [("x.png", File (Blob "1"))])).1 = true.
Proof.
  destruct (source_inside_destination_is_wiped no_faults sample_root
              sample_source sample_source
              (sample_tree [("x.png", File (Blob "1"))])) as [Hwipe Hok].
  - vm_compute. reflexivity.
  - vm_compute. reflexivity.
  - apply (bool_decide_unpack _). vm_compute. exact I.
  - reflexivity.
  - exists []. symmetry. apply app_nil_r.
  - split.
    + destruct (Hwipe (sample_source ++ ["x.png"])) as [H|H].
      * apply under_app. discriminate.
      * exact H.
      * apply app_inv_head in H. discriminate H.
    + apply Hok.
      * reflexivity.
      * apply wf_check. apply (bool_decide_unpack _). vm_compute. exact I.
      * reflexivity.
      * reflexivity.
      * reflexivity.
Defined.

(** ** Paths the run rejects *)

Lemma migrate_assets_bad_source (faulty : syscall → bool) (root src dst : path)
    (m : fs) :
  is_dir m src = false → migrate_assets faulty root src dst m = (false, m).
Proof.
  intros H. unfold migrate_assets. destruct (negb (path_exists m src)); [done|].
  by rewrite H.
Qed.




(** ** The default paths *)

(** X6: the default destination always passes the guard: when it is a directory
    and its removal does not fail, the guarded delete removes it, and
    nothing at or below the default source is touched; neither default
    directory holds the other. *)
Theorem default_paths_pass_guard (faulty : syscall → bool) (root : path) (m : fs) :
  is_dir m (get_default_paths root).2 = true →
  faulty (SysRmtree (get_default_paths root).2) = false →
  safe_rmtree faulty (get_default_paths root).2
    (get_project_root root ++ ["Sources"]) m
  = (true, outside (get_default_paths root).2 m) ∧
  (∀ q, outside (get_default_paths root).2 m !! ((get_default_paths root).1 ++ q)
        = m !! ((get_default_paths root).1 ++ q)) ∧
  unrelated (get_default_paths root).1 (get_default_paths root).2.
Proof.
  intros Hd Hf.
  assert ((get_project_root root ++ ["Sources"]) `prefix_of` (get_default_paths root).2)
    as Hin.
  { unfold get_default_paths, get_project_root. simpl.
    exists ["ClaudeUsagePro"; "Assets.xcassets"]. by rewrite <- app_assoc. }
  assert (∀ q, ¬ (get_default_paths root).2 `prefix_of` (get_default_paths root).1 ++ q)
    as Hds.
  { intros q. unfold get_default_paths, get_project_root. simpl.
    rewrite <- app_assoc. intros Hp. apply prefix_app_inv in Hp.
    destruct Hp as [r Hr]. simpl in Hr. discriminate Hr. }
  split_and!.
  - by apply safe_rmtree_accepts.
  - intros q. rewrite lookup_outside. by rewrite decide_False.
  - split.
    + unfold get_default_paths, get_project_root. simpl.
      intros Hp. apply prefix_app_inv in Hp.
      destruct Hp as [r Hr]. simpl in Hr. discriminate Hr.
    + specialize (Hds []). by rewrite app_nil_r in Hds.
Qed.

Lemma default_paths_pass_guard_witness :
  safe_rmtree no_faults sample_dest (get_project_root sample_root ++ ["Sources"])
    (<[sample_dest := Dir]> (sample_tree [("x.png", File (Blob "1"))]))
  = (true, outside sample_dest
             (<[sample_dest := Dir]> (sample_tree [("x.png", File (Blob "1"))]))) ∧
  (∀ q, outside sample_dest
          (<[sample_dest := Dir]> (sample_tree [("x.png", File (Blob "1"))]))
          !! (sample_source ++ q)
        = <[sample_dest := Dir]> (sample_tree [("x.png", File (Blob "1"))])
          !! (sample_source ++ q)) ∧
  unrelated sample_source sample_dest.
Proof.
  apply (default_paths_pass_guard no_faults sample_root).
  - vm_compute. reflexivity.
  - reflexivity.
Defined.

(** ** Names and groups *)

Lemma append_nil_r (s : string) : s +:+ "" = s.
Proof. induction s as [|a s IH]; [done|]. by rewrite append_cons, IH. Qed.

Lemma substring_split (s : string) (i : nat) :
  i ≤ String.length s →
  String.substring 0 i s +:+ String.substring i (String.length s - i) s = s.
Proof.
  revert i. induction s as [|a s IH]; intros i Hi.
  - simpl in Hi. by replace i with 0 by lia.
  - destruct i as [|i].
    + simpl. by rewrite substring_all.
    + simpl in *. rewrite append_cons. f_equal. apply IH. lia.
Qed.

(** A name is its stem followed by its suffix. *)
Lemma stem_suffix (f : string) : Pathlib.stem f +:+ Pathlib.suffix f = f.
Proof.
  unfold Pathlib.stem, Pathlib.suffix.
  destruct (PyStr.rfind_dot f) as [i|]; [|apply append_nil_r].
  destruct ((0 <? i) && (i <? String.length f - 1)) eqn:Hc; [|apply append_nil_r].
  apply andb_true_iff in Hc as [_ Hc%Nat.ltb_lt]. apply substring_split. lia.
Qed.

(** The stem is the base name followed by the scale suffix of one of the
    three scales. *)
Lemma strip_scale_variant (stem : string) :
  ∃ sc, sc ∈ scales ∧
        ∀ e, variant_name (strip_scale scale_suffixes stem) e sc = stem +:+ e.
Proof.
  unfold scale_suffixes. cbn [strip_scale].
  destruct (PyStr.endswith stem "@2x") eqn:H2.
  { apply endswith_inv in H2 as [p ->]. rewrite drop_end_app by reflexivity.
    exists "2x". split; [unfold scales; rewrite !elem_of_cons; auto|].
    intros e. rewrite append_assoc. reflexivity. }
  destruct (PyStr.endswith stem "@3x") eqn:H3.
  { apply endswith_inv in H3 as [p ->]. rewrite drop_end_app by reflexivity.
    exists "3x". split; [unfold scales; rewrite !elem_of_cons; auto|].
    intros e. rewrite append_assoc. reflexivity. }
  exists "1x". split; [unfold scales; rewrite !elem_of_cons; auto|].
  intros e. reflexivity.
Qed.

(** X7: every file name is one of the three variant names of the group it is
    put in: the grouping loses no file. *)
Theorem file_is_variant_of_its_group (f : string) :
  ∃ sc, sc ∈ scales ∧ variant_name (group_of f).1 (group_of f).2 sc = f.
Proof.
  destruct (strip_scale_variant (Pathlib.stem f)) as (sc & Hsc & Hv).
  exists sc. split; [done|]. unfold group_of. simpl.
  rewrite Hv. apply stem_suffix.
Qed.

Lemma variant_of_group (f : string) (b e : string) :
  group_of f = (b, e) → ∃ sc, sc ∈ scales ∧ variant_name b e sc = f.
Proof.
  unfold group_of. intros [= <- <-].
  destruct (strip_scale_variant (Pathlib.stem f)) as (sc & Hsc & Hv).
  exists sc. split; [done|]. rewrite Hv. apply stem_suffix.
Qed.

Lemma lower_ascii_inv (c d : ascii) :
  PyStr.lower_ascii c = d →
  c = d ∨
  (c = ascii_of_N (N_of_ascii d - 32) ∧
   PyStr.lower_ascii (ascii_of_N (N_of_ascii d - 32)) = d).
Proof.
  intros <-. destruct c as [[] [] [] [] [] [] [] []]; vm_compute; auto.
Qed.

(** The shape of a recognised extension, whatever its case: one dot, at its
    start, and at least one more character. *)
Lemma extension_shape (e : string) :
  PyStr.lower e ∈ image_extensions →
  PyStr.rfind_dot e = Some 0 ∧ 1 < String.length e.
Proof.
  unfold image_extensions. rewrite !elem_of_cons, elem_of_nil.
  intros [H|[H|[H|[]]]];
    repeat (destruct e as [|? e]; [discriminate H|];
            simpl in H; injection H as ? H);
    (destruct e; [|discriminate H]);
    repeat match goal with
           | Hc : PyStr.lower_ascii _ = _ |- _ =>
               destruct (lower_ascii_inv _ _ Hc) as [->|[-> Hc'']];
               [|vm_compute in Hc''; first [discriminate Hc''|clear Hc'']];
               clear Hc
           end;
    (split; [vm_compute; reflexivity|simpl; lia]).
Qed.

(** X8: the variant names of a group with a recognised extension lead back to
    the group: for the scales 2x and 3x whatever the base name, for the
    scale 1x when the base name is not empty and does not itself end in a
    scale suffix. *)
Theorem group_of_variant_name (b e : string) :
  PyStr.lower e ∈ image_extensions →
  group_of (variant_name b e "2x") = (b, e) ∧
  group_of (variant_name b e "3x") = (b, e) ∧
  (b ≠ "" → PyStr.endswith b "@2x" = false → PyStr.endswith b "@3x" = false →
   group_of (variant_name b e "1x") = (b, e)).
Proof.
  intros He. destruct (extension_shape e He) as [Hdot Hlen].
  unfold group_of. split_and!.
  - change (variant_name b e "2x") with (b +:+ ("@2x" +:+ e)).
    rewrite <- append_assoc.
    destruct (name_suffix (b +:+ "@2x") e) as [-> ->]; [by destruct b|done|done|].
    unfold scale_suffixes. cbn [strip_scale]. rewrite endswith_app.
    by rewrite drop_end_app by reflexivity.
  - change (variant_name b e "3x") with (b +:+ ("@3x" +:+ e)).
    rewrite <- append_assoc.
    destruct (name_suffix (b +:+ "@3x") e) as [-> ->]; [by destruct b|done|done|].
    unfold scale_suffixes. cbn [strip_scale].
    rewrite endswith_3x_not_2x, endswith_app.
    by rewrite drop_end_app by reflexivity.
  - intros Hb H2 H3. change (variant_name b e "1x") with (b +:+ e).
    destruct (name_suffix b e) as [-> ->]; [done..|].
    unfold scale_suffixes. cbn [strip_scale]. by rewrite H2, H3.
Qed.

Lemma group_of_variant_name_witness :
  group_of (variant_name "logo" ".JPG" "2x") = ("logo", ".JPG") ∧
  group_of (variant_name "logo" ".JPG" "3x") = ("logo", ".JPG") ∧
  group_of (variant_name "logo" ".JPG" "1x") = ("logo", ".JPG").
Proof.
  destruct (group_of_variant_name "logo" ".JPG") as (H2 & H3 & H1).
  - apply (bool_decide_unpack _). vm_compute. exact I.
  - split_and!; [exact H2|exact H3|].
    apply H1; [discriminate|reflexivity|reflexivity].
Defined.

(** ** What a clean run leaves in the destination *)

Lemma image_name_ne_manifest (f : string) :
  PyStr.lower (Pathlib.suffix f) ∈ image_extensions → f ≠ "Contents.json".
Proof.
  intros H ->. revert H. apply (bool_decide_unpack _). vm_compute. exact I.
Qed.

(** A copied variant stays in its imageset whatever is built afterwards. *)
Lemma built_all_copied (faulty : syscall → bool) (src dst : path) (m0 : fs)
    (groups : list (string * string)) (s : fs) (b e sc : string) (c : content) :
  (b, e) ∈ groups → sc ∈ scales →
  variant_name b e sc ≠ "Contents.json" →
  copied faulty src (imageset_dir dst b) m0 (variant_name b e sc) = Some c →
  built_all faulty src dst m0 groups s
    !! (imageset_dir dst b ++ [variant_name b e sc]) = Some (File c).
Proof.
  intros Hin Hsc Hne Hc. induction groups as [|g groups IH] using rev_ind.
  - by apply elem_of_nil in Hin.
  - rewrite built_all_snoc. apply elem_of_app in Hin as [Hin|Hin].
    + specialize (IH Hin). destruct (decide (g.1 = b)) as [Hg|Hg].
      * destruct g as [b' e']; simpl in Hg; subst b'. simpl.
        destruct (built_entry faulty src dst m0 b e' (variant_name b e sc)
                    (built_all faulty src dst m0 groups s))
          as [[_ Heq]|[Heq|(sc' & c' & _ & _ & Hc' & Hl)]].
        -- done.
        -- by rewrite Heq.
        -- rewrite Hl. congruence.
      * rewrite built_outside; [done|]. intros Hp. apply Hg.
        by apply imageset_dir_inj in Hp.
    + apply list_elem_of_singleton in Hin as <-. simpl. by apply built_copied.
Qed.

(** The conditions of a clean run on a sample tree, by computation. *)
Ltac sample_clean_run :=
  apply clean_run_check;
  [ apply (bool_decide_unpack _); vm_compute; exact I
  | vm_compute; reflexivity
  | split; intros [k Hk]; vm_compute in Hk; discriminate Hk
  | repeat (constructor; [intros c; vm_compute; discriminate|]); constructor
  | right; exists ["ClaudeUsagePro"; "Assets.xcassets"]; vm_compute; reflexivity
  | intros a; reflexivity .. ].

(** X9: in a run in which only copies may fail, every regular file of the
    source with a recognised extension whose copy does not fail is found
    afterwards, with its content, in the imageset of its group and under its
    own name. *)
Theorem every_image_is_copied (faulty : syscall → bool) (root src dst : path)
    (m : fs) (f : string) (c : content) :
  clean_run faulty root src dst m →
  m !! (src ++ [f]) = Some (File c) →
  PyStr.lower (Pathlib.suffix f) ∈ image_extensions →
  faulty (SysCopy (src ++ [f]) (imageset_dir dst (group_of f).1 ++ [f])) = false →
  (migrate_assets faulty root src dst m).2
    !! (imageset_dir dst (group_of f).1 ++ [f]) = Some (File c).
Proof.
  intros Hclean Hf Hext Hcopy.
  assert (group_of f ∈ discovered src m) as Hg.
  { apply elem_of_discovered; [apply Hclean|]. exists f. rewrite Hf. eauto. }
  pose proof (image_name_ne_manifest f Hext) as Hne.
  destruct (group_of f) as [b e] eqn:Hgo.
  destruct (variant_of_group f b e Hgo) as (sc & Hsc & Hv). subst f.
  rewrite (clean_migrate _ _ _ _ _ Hclean).
  apply built_all_copied; [by apply sorted_elem_of|done|done|].
  by apply copied_file.
Qed.

Lemma every_image_is_copied_witness :
  (migrate_assets no_faults sample_root sample_source sample_dest
     (sample_tree [("a.b@3x.JPeG", File (Blob "3")); ("notes.txt", File (Blob "n"))])).2
    !! (imageset_dir sample_dest (group_of "a.b@3x.JPeG").1 ++ ["a.b@3x.JPeG"])
  = Some (File (Blob "3")).
Proof.
  apply (every_image_is_copied no_faults sample_root sample_source sample_dest).
  - sample_clean_run.
  - vm_compute. reflexivity.
  - apply (bool_decide_unpack _). vm_compute. exact I.
  - reflexivity.
Defined.



(** ** The loop over the groups *)

Lemma process_cons (faulty : syscall → bool) (src dst : path) (b e : string)
    (rest : list (string * string)) (ok : bool) (m : fs) :
  process faulty src dst ((b, e) :: rest) ok m
  = process faulty src dst rest
      (if (create_imageset faulty src dst b e scales m).1 then ok else false)
      (create_imageset faulty src dst b e scales m).2.
Proof.
  cbn [process]. by destruct (create_imageset faulty src dst b e scales m).
Qed.

(** The flag only records failures: the tree does not depend on it. *)
Lemma process_flag (faulty : syscall → bool) (src dst : path)
    (groups : list (string * string)) (ok : bool) (m : fs) :
  process faulty src dst groups ok m
  = (ok && (process faulty src dst groups true m).1,
     (process faulty src dst groups true m).2).
Proof.
  revert ok m. induction groups as [|[b e] groups IH]; intros ok m.
  - simpl. by rewrite andb_true_r.
  - rewrite !process_cons.
    destruct (create_imageset faulty src dst b e scales m) as [[] m']; simpl.
    + apply IH.
    + rewrite (IH false m'). simpl. by rewrite andb_false_r.
Qed.

Lemma process_tree (faulty : syscall → bool) (src dst : path)
    (groups : list (string * string)) (ok ok' : bool) (m : fs) :
  (process faulty src dst groups ok m).2 = (process faulty src dst groups ok' m).2.
Proof.
  by rewrite (process_flag _ _ _ _ ok), (process_flag _ _ _ _ ok').
Qed.

Lemma process_app (faulty : syscall → bool) (src dst : path)
    (l1 l2 : list (string * string)) (ok : bool) (m : fs) :
  process faulty src dst (l1 ++ l2) ok m
  = process faulty src dst l2 (process faulty src dst l1 ok m).1
      (process faulty src dst l1 ok m).2.
Proof.
  revert ok m. induction l1 as [|[b e] l1 IH]; intros ok m; [done|].
  rewrite <- app_comm_cons, !process_cons. apply IH.
Qed.

Lemma create_imageset_no_dir (faulty : syscall → bool) (src dst : path)
    (b e : string) (scs : list string) (m : fs) :
  faulty (SysMakedirs (imageset_dir dst b)) = true →
  create_imageset faulty src dst b e scs m = (false, m).
Proof.
  intros H. unfold create_imageset, makedirs. fold (imageset_dir dst b).
  by rewrite H.
Qed.

Lemma create_imageset_no_manifest (faulty : syscall → bool) (src dst : path)
    (b e : string) (scs : list string) (m : fs) :
  faulty (SysOpenW (manifest_path dst b)) = true →
  (create_imageset faulty src dst b e scs m).1 = false.
Proof.
  intros H. unfold create_imageset. fold (imageset_dir dst b).
  destruct (makedirs faulty (imageset_dir dst b) m) as [m1|]; [|done].
  destruct (copy_variants _ _ _ _ _ _ _ _) as [imgs m2].
  unfold write_json. fold (manifest_path dst b). by rewrite H.
Qed.

Lemma process_group_fails (faulty : syscall → bool) (src dst : path)
    (l1 l2 : list (string * string)) (b e : string) (ok : bool) (m : fs) :
  faulty (SysMakedirs (imageset_dir dst b)) = true ∨
  faulty (SysOpenW (manifest_path dst b)) = true →
  (process faulty src dst (l1 ++ (b, e) :: l2) ok m).1 = false.
Proof.
  intros Hf.
  assert (∀ m0, (create_imageset faulty src dst b e scales m0).1 = false) as Hfail.
  { intros m0. destruct Hf as [Hf|Hf].
    - by rewrite create_imageset_no_dir.
    - by apply create_imageset_no_manifest. }
  rewrite process_app, process_cons, Hfail. cbv iota. by rewrite process_flag.
Qed.

(** X11: a group whose imageset directory cannot be created, or whose manifest
    cannot be written, makes the loop report failure without stopping it:
    the groups after it are processed all the same.  When it is the
    directory that cannot be created, the tree is the one the other groups
    alone give. *)
Theorem failed_group_is_skipped (faulty : syscall → bool) (src dst : path)
    (l1 l2 : list (string * string)) (b e : string) (ok : bool) (m : fs) :
  faulty (SysMakedirs (imageset_dir dst b)) = true ∨
  faulty (SysOpenW (manifest_path dst b)) = true →
  (process faulty src dst (l1 ++ (b, e) :: l2) ok m).1 = false ∧
  (process faulty src dst (l1 ++ (b, e) :: l2) ok m).2
  = (process faulty src dst l2 true
       (create_imageset faulty src dst b e scales
          (process faulty src dst l1 true m).2).2).2 ∧
  (faulty (SysMakedirs (imageset_dir dst b)) = true →
   (process faulty src dst (l1 ++ (b, e) :: l2) ok m).2
   = (process faulty src dst (l1 ++ l2) ok m).2).
Proof.
  intros Hf.
  assert (∀ m0, (create_imageset faulty src dst b e scales m0).1 = false) as Hfail.
  { intros m0. destruct Hf as [Hf|Hf].
    - by rewrite create_imageset_no_dir.
    - by apply create_imageset_no_manifest. }
  rewrite process_app, process_cons, Hfail. cbv iota.
  split_and!.
  - by rewrite process_flag.
  - rewrite (process_tree faulty src dst l2 false true).
    by rewrite (process_tree faulty src dst l1 ok true).
  - intros Hmk. rewrite create_imageset_no_dir by done. simpl.
    rewrite process_app. apply process_tree.
Qed.

Lemma failed_group_is_skipped_witness :
  (process
     (λ call, match call with
              | SysMakedirs p => bool_decide (p = imageset_dir sample_dest "a")
              | _ => false
              end)
     sample_source sample_dest ([] ++ ("a", ".png") :: [("b", ".png")]) true
     (<[sample_dest := Dir]>
        (sample_tree [("a.png", File (Blob "A")); ("b.png", File (Blob "B"))]))).1
  = false ∧
  (process
     (λ call, match call with
              | SysMakedirs p => bool_decide (p = imageset_dir sample_dest "a")
              | _ => false
              end)
     sample_source sample_dest ([] ++ ("a", ".png") :: [("b", ".png")]) true
     (<[sample_dest := Dir]>
        (sample_tree [("a.png", File (Blob "A")); ("b.png", File (Blob "B"))]))).2
  = (process
       (λ call, match call with
                | SysMakedirs p => bool_decide (p = imageset_dir sample_dest "a")
                | _ => false
                end)
       sample_source sample_dest ([] ++ [("b", ".png")]) true
       (<[sample_dest := Dir]>
          (sample_tree [("a.png", File (Blob "A")); ("b.png", File (Blob "B"))]))).2.
Proof.
  destruct (failed_group_is_skipped
              (λ call, match call with
                       | SysMakedirs p => bool_decide (p = imageset_dir sample_dest "a")
                       | _ => false
                       end)
              sample_source sample_dest [] [("b", ".png")] "a" ".png" true
              (<[sample_dest := Dir]>
                 (sample_tree [("a.png", File (Blob "A")); ("b.png", File (Blob "B"))])))
    as (Hflag & _ & Htree).
  - left. vm_compute. reflexivity.
  - split; [exact Hflag|]. apply Htree. vm_compute. reflexivity.
Defined.

(** ** The manifest of an imageset *)

Lemma copy_variants_entries (faulty : syscall → bool) (src imgdir : path)
    (b e : string) (scs : list string) (imgs : list json) (m : fs) :
  ∃ names,
    (copy_variants faulty src imgdir b e scs imgs m).1
    = imgs ++ zip_with image_entry scs names ∧
    Forall2 (λ sc o, o = None ∨ o = Some (variant_name b e sc)) scs names.
Proof.
  revert imgs m. induction scs as [|sc scs IH]; intros imgs m.
  - exists []. simpl. by rewrite app_nil_r.
  - cbn [copy_variants].
    set (v := variant_name b e sc).
    destruct (if path_exists m (src ++ [v])
              then match copy2 faulty (src ++ [v]) (imgdir ++ [v]) m with
                   | Some m' => (Some v, m')
                   | None => (None, m)
                   end
              else (None, m)) as [o m'] eqn:Ho.
    destruct (IH (imgs ++ [image_entry sc o]) m') as (names & Heq & Hall).
    exists (o :: names). split.
    + rewrite Heq. simpl. by rewrite <- app_assoc.
    + constructor; [|done].
      destruct (path_exists m (src ++ [v])); [|injection Ho as <- _; by left].
      destruct (copy2 faulty (src ++ [v]) (imgdir ++ [v]) m);
        injection Ho as <- _; [by right|by left].
Qed.

(** X12: whenever [create_imageset] returns [True], whatever the tree and
    whatever failed on the way, the imageset directory exists and its
    manifest has the fixed info block and exactly three entries, for the
    scales 1x, 2x and 3x in this order, each either without a filename or
    with the variant name of its scale. *)
Theorem manifest_schema (faulty : syscall → bool) (src dst : path)
    (b e : string) (m : fs) :
  (create_imageset faulty src dst b e scales m).1 = true →
  is_dir (create_imageset faulty src dst b e scales m).2 (imageset_dir dst b) = true ∧
  ∃ o1 o2 o3,
    (create_imageset faulty src dst b e scales m).2 !! manifest_path dst b
    = Some (File (Document (JObject
        [("images", JArray [image_entry "1x" o1; image_entry "2x" o2;
                            image_entry "3x" o3]);
         ("info", JObject [("author", JString "xcode"); ("version", JNumber 1)])]))) ∧
    (o1 = None ∨ o1 = Some (b +:+ e)) ∧
    (o2 = None ∨ o2 = Some (b +:+ "@2x" +:+ e)) ∧
    (o3 = None ∨ o3 = Some (b +:+ "@3x" +:+ e)).
Proof.
  unfold manifest_path, create_imageset. fold (imageset_dir dst b).
  destruct (makedirs faulty (imageset_dir dst b) m) as [m1|]; [|done].
  destruct (copy_variants_entries faulty src (imageset_dir dst b) b e scales [] m1)
    as (names & Heq & Hall).
  destruct (copy_variants faulty src (imageset_dir dst b) b e scales [] m1)
    as [imgs m2]. simpl in Heq. subst imgs.
  rewrite write_json_snoc.
  destruct (faulty (SysOpenW _)); [done|].
  destruct (is_dir m2 (imageset_dir dst b)) eqn:Hd; [|done].
  destruct (negb _); [|done]. simpl. intros _. split.
  - rewrite is_dir_insert_ne; [done|].
    intros Heq. apply (f_equal length) in Heq. rewrite length_app in Heq.
    simpl in Heq. lia.
  - unfold scales in Hall.
    apply Forall2_cons_inv_l in Hall as (o1 & n1 & H1 & Hall & ->).
    apply Forall2_cons_inv_l in Hall as (o2 & n2 & H2 & Hall & ->).
    apply Forall2_cons_inv_l in Hall as (o3 & n3 & H3 & Hall & ->).
    apply Forall2_nil_inv_l in Hall as ->.
    exists o1, o2, o3. split; [|done].
    by rewrite lookup_insert_eq.
Qed.

Lemma manifest_schema_witness :
  is_dir (create_imageset copies_fail sample_source sample_dest "a" ".png" scales
            (<[sample_dest := Dir]> (sample_tree [("a.png", File (Blob "A"))]))).2
    (imageset_dir sample_dest "a") = true.
Proof.
  apply (manifest_schema copies_fail sample_source sample_dest "a" ".png").
  vm_compute. reflexivity.
Defined.

(** ** The paths [main] settles on *)

(** X13: for every command line and environment, each path is the positional
    argument when there is one, else the environment variable when it is
    set, else the empty string, which is the working directory; the project
    root plays no part. *)
Theorem resolve_paths_exact (root : path) (argv : list string)
    (environ : gmap string string) :
  resolve_paths root argv environ
  = (Pathlib.Path
       (default (default "" (environ !! "ASSET_SOURCE_DIR")) (argv !! 1)),
     Pathlib.Path
       (default (default "" (environ !! "ASSET_DEST_DIR")) (argv !! 2))).
Proof.
  unfold resolve_paths, Pathlib.por, Pathlib.truthy. simpl.
  f_equal.
  - case_decide as H.
    + destruct (lookup_lt_is_Some_2 argv 1) as [a Ha]; [lia|]. by rewrite Ha.
    + rewrite (lookup_ge_None_2 argv 1) by lia. done.
  - case_decide as H.
    + destruct (lookup_lt_is_Some_2 argv 2) as [a Ha]; [lia|]. by rewrite Ha.
    + rewrite (lookup_ge_None_2 argv 2) by lia. done.
Qed.

(** ** What a successful run guarantees *)

(** When the loop over the groups reports success, every imageset was
    built. *)
Lemma process_true (faulty : syscall → bool) (src dst : path) (m0 : fs)
    (groups : list (string * string)) (ok : bool) (s : fs) :
  unrelated src dst →
  tidy src dst m0 s →
  (process faulty src dst groups ok s).1 = true →
  ok = true ∧
  (process faulty src dst groups ok s).2 = built_all faulty src dst m0 groups s.
Proof.
  intros Hun. revert ok s. induction groups as [|[b e] groups IH]; intros ok s Ht H.
  - done.
  - rewrite process_cons in H |- *.
    pose proof Ht as (Hd & Hsrc & Hnd & Hnf).
    rewrite (create_imageset_spec faulty src dst m0 b e s Hun Hd Hsrc (Hnd b))
      in H |- *.
    assert (∀ t, (process faulty src dst groups false t).1 = true → False) as Hno.
    { intros t Ht'. by rewrite process_flag in Ht'. }
    destruct (faulty (SysMakedirs (imageset_dir dst b))); [by destruct (Hno _ H)|].
    assert (∀ r : bool * fs,
              (process faulty src dst groups (if r.1 then ok else false) r.2).1 = true →
              r = (if faulty (SysOpenW (manifest_path dst b))
                   then (false,
                         foldl (put_variant faulty src (imageset_dir dst b) m0 b e)
                           (<[imageset_dir dst b := Dir]> s) scales)
                   else (true, built faulty src dst m0 b e s)) →
              ok = true ∧
              (process faulty src dst groups (if r.1 then ok else false) r.2).2
              = built_all faulty src dst m0 ((b, e) :: groups) s) as Hgo.
    { intros r Hr ->. destruct (faulty (SysOpenW _)); [by destruct (Hno _ Hr)|].
      simpl in *. apply IH; [|done]. by apply built_tidy. }
    destruct (s !! imageset_dir dst b) as [[|c]|] eqn:Hl.
    + by apply Hgo.
    + by destruct (Hno _ H).
    + by apply Hgo.
Qed.

(** Rebuilding an emptied destination: when it reports success, the loop
    over the discovered groups was run on the bare catalog. *)
Lemma rebuild_true (faulty : syscall → bool) (src dst : path) (m : fs) :
  is_dir m src = true →
  unrelated src dst →
  (rebuild faulty src dst (outside dst m)).1 = true →
  rebuild faulty src dst (outside dst m)
  = process faulty src dst (sorted (discovered src m)) true (catalog dst m) ∧
  tidy src dst m (catalog dst m) ∧
  catalog dst m !! (dst ++ ["Contents.json"]) = Some (File (Document root_contents)).
Proof.
  intros Hsrc Hun. pose proof Hun as [Hsd Hds].
  assert (src ≠ []) as Hsne by (intros ->; apply Hsd, prefix_nil).
  unfold rebuild.
  destruct (makedirs faulty dst (outside dst m)) as [m1|] eqn:Hmk'; [|done].
  pose proof (makedirs_dirs_above _ _ _ _ Hmk') as Hd1.
  assert (makedirs_from [] dst (outside dst m) = Some m1) as Hmk.
  { unfold makedirs in Hmk'. by destruct (faulty _). }
  assert (∀ k, under dst k → m1 !! k = None) as Hunder1.
  { intros k Hk.
    destruct (makedirs_from_lookup _ _ _ _ Hmk k) as [->|(_ & _ & _ & Hp)].
    - rewrite lookup_outside. rewrite decide_True; [done|apply Hk].
    - by apply prefix_not_under in Hp. }
  assert (∀ k, ¬ dst `prefix_of` k → ¬ k `prefix_of` dst → m1 !! k = m !! k) as Hfar1.
  { intros k Hk1 Hk2.
    destruct (makedirs_from_lookup _ _ _ _ Hmk k) as [->|(_ & _ & _ & Hp)]; [|done].
    rewrite lookup_outside. by rewrite decide_False. }
  rewrite write_json_snoc.
  destruct (faulty (SysOpenW (dst ++ ["Contents.json"]))); [done|].
  rewrite (Hd1 dst) by done. rewrite is_dir_snoc.
  rewrite Hunder1 by (by apply under_app). simpl.
  unfold catalog. rewrite Hmk. simpl.
  set (s := <[dst ++ ["Contents.json"] := File (Document root_contents)]> m1).
  assert (frame dst m1 s) as Hfr by apply frame_insert.
  assert (∀ k, ¬ dst `prefix_of` k → ¬ k `prefix_of` dst → s !! k = m !! k) as Hfar.
  { intros k Hk1 Hk2. rewrite Hfr by (by intros [? _]). by apply Hfar1. }
  assert (∀ k, under dst k → k ≠ dst ++ ["Contents.json"] → s !! k = None) as Hunder.
  { intros k Hk Hne. unfold s. rewrite lookup_insert_ne by done. by apply Hunder1. }
  assert (∀ v, s !! (src ++ [v]) = m !! (src ++ [v])) as Hsources.
  { intros v. apply Hfar.
    - intros Hp. apply prefix_snoc_inv in Hp as [Heq|Hp]; [|done].
      apply Hsd. rewrite Heq. by apply prefix_app_r.
    - intros Hp. apply Hsd. by eapply prefix_app_l. }
  assert (tidy src dst m s) as Htidy.
  { split_and!.
    - by eapply frame_dirs_above.
    - done.
    - intros b v. rewrite is_dir_snoc. rewrite Hunder; [done| |].
      + unfold imageset_dir. rewrite <- app_assoc. by apply under_app.
      + unfold imageset_dir. rewrite <- app_assoc. apply not_eq_sym, snoc_ne_snoc2.
    - intros b c. rewrite Hunder; [done|by apply under_app|].
      unfold imageset_dir. intros Heq. apply app_inv_head in Heq.
      injection Heq as Heq. by apply imageset_name_ne_manifest in Heq. }
  destruct (listdir faulty src s) as [listing|] eqn:Hls; [|done].
  assert (is_Some (listdir no_faults src m)) as [listing0 Hls0].
  { unfold listdir. simpl. rewrite Hsrc. eauto. }
  assert (sorted (base_names (image_files listing)) = sorted (discovered src m)) as ->.
  { unfold discovered. rewrite Hls0. simpl. f_equal. apply base_names_ext. intros f.
    rewrite (elem_of_listdir _ _ _ _ _ Hls), (elem_of_listdir _ _ _ _ _ Hls0).
    by rewrite Hsources. }
  intros Hok. split_and!; [done|done|].
  unfold s. apply lookup_insert_eq.
Qed.

(** A run that reports success went through the source checks, the guarded
    delete and the rebuilding of the emptied destination. *)
Lemma migrate_assets_true (faulty : syscall → bool) (root src dst : path) (m : fs) :
  wf m →
  (migrate_assets faulty root src dst m).1 = true →
  is_dir m src = true ∧
  migrate_assets faulty root src dst m = rebuild faulty src dst (outside dst m).
Proof.
  intros Hwf Hok.
  assert (is_dir m src = true) as Hs.
  { destruct (is_dir m src) eqn:Hs; [done|].
    by rewrite migrate_assets_bad_source in Hok. }
  split; [done|]. revert Hok.
  unfold migrate_assets. rewrite (is_dir_exists _ _ Hs), Hs. simpl.
  destruct (safe_rmtree_cases faulty dst (get_project_root root ++ ["Sources"]) m)
    as [->|[[Hno ->]|(_ & _ & ->)]]; [done| |done].
  intros _. f_equal. symmetry. apply wf_outside_absent; [done|].
  by apply path_exists_None.
Qed.

(** X14: whatever may fail, when source and destination are separate
    directories and [migrate_assets] returns [True], the destination holds
    the root manifest and, for every group discovered in the source, its
    imageset directory with a manifest: a successful result is never
    reported for an incomplete catalog. *)
Theorem success_means_complete (faulty : syscall → bool) (root src dst : path)
    (m : fs) :
  wf m →
  unrelated src dst →
  (migrate_assets faulty root src dst m).1 = true →
  (migrate_assets faulty root src dst m).2 !! (dst ++ ["Contents.json"])
  = Some (File (Document (JObject
      [("info", JObject [("author", JString "xcode"); ("version", JNumber 1)])]))) ∧
  ∀ b e, (b, e) ∈ discovered src m →
         (migrate_assets faulty root src dst m).2 !! imageset_dir dst b = Some Dir ∧
         ∃ j, (migrate_assets faulty root src dst m).2 !! manifest_path dst b
              = Some (File (Document j)).
Proof.
  intros Hwf Hun Hok.
  destruct (migrate_assets_true faulty root src dst m Hwf Hok) as [Hs Hrb].
  rewrite Hrb in Hok |- *.
  destruct (rebuild_true faulty src dst m Hs Hun Hok) as (Heq & Htidy & Hroot).
  rewrite Heq in Hok |- *.
  destruct (process_true faulty src dst m _ true _ Hun Htidy Hok) as [_ ->].
  split.
  - rewrite built_all_outside; [done|]. intros g _ Hp.
    unfold imageset_dir in Hp. apply prefix_app_inv in Hp.
    destruct Hp as [r Hr]. injection Hr as Hr _.
    symmetry in Hr. by apply imageset_name_ne_manifest in Hr.
  - intros b e Hin. apply sorted_elem_of in Hin. split.
    + by apply (built_all_dir faulty src dst m _ _ (b, e)).
    + by apply (built_all_manifest faulty src dst m _ _ (b, e)).
Qed.

Lemma success_means_complete_witness :
  (migrate_assets copies_fail sample_root sample_source sample_dest
     (sample_tree [("a.png", File (Blob "A"))])).2 !! (sample_dest ++ ["Contents.json"])
  = Some (File (Document (JObject
      [("info", JObject [("author", JString "xcode"); ("version", JNumber 1)])]))).
Proof.
  destruct (success_means_complete copies_fail sample_root sample_source sample_dest
              (sample_tree [("a.png", File (Blob "A"))])) as [Hroot _].
  - apply wf_check. apply (bool_decide_unpack _). vm_compute. exact I.
  - split; intros [k Hk]; vm_compute in Hk; discriminate Hk.
  - vm_compute. reflexivity.
  - exact Hroot.
Defined.

(** ** Failures that are reported *)

(** X15: when source and destination are separate directories, every failure
    other than a copy makes [migrate_assets] return [False]: a failure to
    create the destination, to write the root manifest or to list the
    source, and, for any discovered group, a failure to create its imageset
    directory or to write its manifest. *)
Theorem failures_are_reported (faulty : syscall → bool) (root src dst : path)
    (m : fs) :
  wf m →
  unrelated src dst →
  faulty (SysMakedirs dst) = true ∨
  faulty (SysOpenW (dst ++ ["Contents.json"])) = true ∨
  faulty (SysListdir src) = true ∨
  (∃ b e, (b, e) ∈ discovered src m ∧
          (faulty (SysMakedirs (imageset_dir dst b)) = true ∨
           faulty (SysOpenW (manifest_path dst b)) = true)) →
  (migrate_assets faulty root src dst m).1 = false.
Proof.
  intros Hwf Hun Hf.
  destruct ((migrate_assets faulty root src dst m).1) eqn:Hok; [exfalso|done].
  destruct (migrate_assets_true faulty root src dst m Hwf Hok) as [Hs Hrb].
  rewrite Hrb in Hok.
  destruct Hf as [Hf|[Hf|[Hf|(b & e & Hin & Hf)]]].
  - unfold rebuild, makedirs in Hok. by rewrite Hf in Hok.
  - unfold rebuild in Hok. destruct (makedirs _ _ _); [|done].
    unfold write_json in Hok. by rewrite Hf in Hok.
  - unfold rebuild in Hok. destruct (makedirs _ _ _); [|done].
    destruct (write_json _ _ _ _); [|done].
    unfold listdir in Hok. by rewrite Hf in Hok.
  - destruct (rebuild_true faulty src dst m Hs Hun Hok) as (Heq & _).
    rewrite Heq in Hok. apply sorted_elem_of in Hin.
    apply list_elem_of_split in Hin as (l1 & l2 & Hl). rewrite Hl in Hok.
    by rewrite process_group_fails in Hok.
Qed.

Lemma failures_are_reported_witness :
  (migrate_assets
     (λ call, match call with
              | SysOpenW p => bool_decide (p = manifest_path sample_dest "a")
              | _ => false
              end)
     sample_root sample_source sample_dest
     (sample_tree [("a.png", File (Blob "A")); ("b.png", File (Blob "B"))])).1 = false.
Proof.
  apply (failures_are_reported
           (λ call, match call with
                    | SysOpenW p => bool_decide (p = manifest_path sample_dest "a")
                    | _ => false
                    end)
           sample_root sample_source sample_dest).
  - apply wf_check. apply (bool_decide_unpack _). vm_compute. exact I.
  - split; intros [k Hk]; vm_compute in Hk; discriminate Hk.
  - right; right; right. exists "a", ".png". split.
    + apply (bool_decide_unpack _). vm_compute. exact I.
    + right. vm_compute. reflexivity.
Defined.

(** ** What the destination depends on *)

Lemma built_source_ext (faulty : syscall → bool) (src dst : path) (m0 m0' : fs)
    (b e : string) (s : fs) :
  (∀ v, m0 !! (src ++ [v]) = m0' !! (src ++ [v])) →
  built faulty src dst m0 b e s = built faulty src dst m0' b e s.
Proof.
  intros Hsrc.
  assert (∀ imgdir v, copied faulty src imgdir m0 v = copied faulty src imgdir m0' v)
    as Hc by (intros imgdir v; unfold copied; by rewrite Hsrc).
  unfold built, manifest_of, scales. cbn [foldl fmap list_fmap].
  unfold put_variant, entry_of. by rewrite !Hc.
Qed.

Lemma built_all_source_ext (faulty : syscall → bool) (src dst : path) (m0 m0' : fs)
    (groups : list (string * string)) (s : fs) :
  (∀ v, m0 !! (src ++ [v]) = m0' !! (src ++ [v])) →
  built_all faulty src dst m0 groups s = built_all faulty src dst m0' groups s.
Proof.
  intros Hsrc. revert s. induction groups as [|g groups IH]; intros s; [done|].
  unfold built_all in *. simpl. rewrite (built_source_ext _ _ _ m0 m0') by done.
  apply IH.
Qed.

Lemma built_all_same_key (faulty : syscall → bool) (src dst : path) (m0 : fs)
    (groups : list (string * string)) (s s' : fs) (k : path) :
  s !! k = s' !! k →
  built_all faulty src dst m0 groups s !! k
  = built_all faulty src dst m0 groups s' !! k.
Proof.
  revert s s'. induction groups as [|g groups IH]; intros s s' Hk; [done|].
  unfold built_all in *. simpl. apply IH. by apply built_agree.
Qed.

Lemma discovered_source_ext (src : path) (m1 m2 : fs) :
  is_dir m1 src = true → is_dir m2 src = true →
  (∀ v, m1 !! (src ++ [v]) = m2 !! (src ++ [v])) →
  discovered src m1 = discovered src m2.
Proof.
  intros H1 H2 Hsrc. apply set_eq. intros g.
  rewrite !elem_of_discovered by done.
  split; intros (f & Hf & Hrest); exists f; (split; [|done]);
    [by rewrite <- Hsrc|by rewrite Hsrc].
Qed.

(** X16: in runs in which only copies may fail, the destination tree is
    determined by the entries of the source directory (and the oracle):
    two trees with the same source entries give the same destination,
    whatever else they hold, old destination included. *)
Theorem destination_determined_by_source (faulty : syscall → bool)
    (root src dst : path) (m1 m2 : fs) :
  clean_run faulty root src dst m1 →
  clean_run faulty root src dst m2 →
  (∀ v, m1 !! (src ++ [v]) = m2 !! (src ++ [v])) →
  ∀ k, dst `prefix_of` k →
       (migrate_assets faulty root src dst m1).2 !! k
       = (migrate_assets faulty root src dst m2).2 !! k.
Proof.
  intros Hc1 Hc2 Hsrc k Hk.
  rewrite (clean_migrate _ _ _ _ _ Hc1), (clean_migrate _ _ _ _ _ Hc2). simpl.
  rewrite (discovered_source_ext src m1 m2); [|apply Hc1|apply Hc2|done].
  rewrite (built_all_source_ext faulty src dst m1 m2) by done.
  apply built_all_same_key.
  destruct (clean_catalog _ _ _ _ _ Hc1) as (_ & (Hd1 & _) & Hr1 & Hu1 & _).
  destruct (clean_catalog _ _ _ _ _ Hc2) as (_ & (Hd2 & _) & Hr2 & Hu2 & _).
  assert (dst ≠ []) as Hne.
  { intros ->. destruct Hc1 as (_ & _ & [_ Hds] & _). apply Hds, prefix_nil. }
  destruct (decide (k = dst)) as [->|Hkd].
  - specialize (Hd1 dst (reflexivity _)). specialize (Hd2 dst (reflexivity _)).
    apply is_dir_Some in Hd1, Hd2. rewrite lookup_node_ne in Hd1, Hd2 by done.
    by rewrite Hd1, Hd2.
  - destruct (decide (k = dst ++ ["Contents.json"])) as [->|Hkc].
    + by rewrite Hr1, Hr2.
    + by rewrite Hu1, Hu2.
Qed.

Lemma destination_determined_by_source_witness :
  (migrate_assets no_faults sample_root sample_source sample_dest
     (<[sample_dest ++ ["old.imageset"] := Dir]>
        (<[sample_dest := Dir]> (sample_tree [("x.png", File (Blob "1"))])))).2
    !! (sample_dest ++ ["old.imageset"])
  = (migrate_assets no_faults sample_root sample_source sample_dest
       (sample_tree [("x.png", File (Blob "1"))])).2
      !! (sample_dest ++ ["old.imageset"]).
Proof.
  apply (destination_determined_by_source no_faults sample_root sample_source
           sample_dest).
  - sample_clean_run.
  - sample_clean_run.
  - intros v. rewrite !lookup_insert_ne; [done| |].
    + intros Heq. vm_compute in Heq. discriminate Heq.
    + intros Heq. vm_compute in Heq. discriminate Heq.
  - by apply prefix_app_r.
Defined.

(** ** The tree stays well formed *)

Lemma wf_outside (d : path) (m : fs) : wf m → wf (outside d m).
Proof.
  intros Hwf p n [x Hx]. rewrite lookup_outside in Hx.
  case_decide as Hp; [done|].
  assert (lookup_node m p = Some Dir) as Hd by (apply (Hwf p n); eauto).
  destruct (decide (p = [])) as [->|Hne]; [done|].
  rewrite lookup_node_ne in Hd |- * by done.
  rewrite lookup_outside. rewrite decide_False; [done|].
  intros Hq. apply Hp. by apply prefix_app_r.
Qed.

Lemma snoc_ne_self (p : path) (n : string) : p ++ [n] ≠ p.
Proof.
  intros H. apply (f_equal length) in H. rewrite length_app in H. simpl in H. lia.
Qed.

Lemma lookup_node_insert_ne (m : fs) (k p : path) (x : node) :
  k ≠ p → lookup_node (<[k := x]> m) p = lookup_node m p.
Proof. intros Hne. destruct p; [done|]. simpl. by rewrite lookup_insert_ne. Qed.

(** A new entry in a directory keeps the tree well formed, when it is a
    directory or takes the place of nothing that has entries. *)
Lemma wf_insert (m : fs) (p : path) (n : string) (x : node) :
  wf m → lookup_node m p = Some Dir →
  x = Dir ∨ is_dir m (p ++ [n]) = false →
  wf (<[p ++ [n] := x]> m).
Proof.
  intros Hwf Hp Hx k n' Hsome.
  destruct (decide (k ++ [n'] = p ++ [n])) as [Heq|Hne].
  - apply app_inj_tail in Heq as [-> _].
    rewrite lookup_node_insert_ne by apply snoc_ne_self. done.
  - rewrite lookup_insert_ne in Hsome by done.
    pose proof (Hwf k n' Hsome) as Hk.
    destruct (decide (k = p ++ [n])) as [->|Hkp].
    + destruct Hx as [->|Hx].
      * rewrite lookup_node_snoc. by rewrite lookup_insert_eq.
      * apply is_dir_Some in Hk. congruence.
    + by rewrite lookup_node_insert_ne.
Qed.

Lemma makedirs_from_wf (pre rest : path) (m m' : fs) :
  wf m → makedirs_from pre rest m = Some m' → wf m'.
Proof.
  revert pre m. induction rest as [|n rest IH]; intros pre m Hwf Hmk.
  - simpl in Hmk. by injection Hmk as <-.
  - rewrite makedirs_from_cons in Hmk.
    destruct (lookup_node m (pre ++ [n])) as [[|c]|]; [by eapply IH|done|].
    destruct (is_dir m pre) eqn:Hpre; [|done].
    eapply IH; [|exact Hmk]. apply wf_insert; [done|by apply is_dir_Some|by left].
Qed.

Lemma path_snoc (p : path) : p = [] ∨ ∃ q n, p = q ++ [n].
Proof.
  destruct p as [|a p] using rev_ind; [by left|]. right. eauto.
Qed.

Section KeepsWf.
Context (faulty : syscall → bool).

Lemma write_json_wf (p : path) (j : json) (m m' : fs) :
  wf m → write_json faulty p j m = Some m' → wf m'.
Proof.
  intros Hwf. destruct (path_snoc p) as [->|(q & n & ->)].
  - unfold write_json. by destruct (faulty _).
  - rewrite write_json_snoc. destruct (faulty _); [done|].
    destruct (is_dir m q) eqn:Hq; [|done].
    destruct (is_dir m (q ++ [n])) eqn:Hn; [done|]. simpl. intros [= <-].
    apply wf_insert; [done|by apply is_dir_Some|by right].
Qed.

Lemma copy2_wf (src dst : path) (m m' : fs) :
  wf m → copy2 faulty src dst m = Some m' → wf m'.
Proof.
  intros Hwf. unfold copy2. destruct (faulty _); [done|].
  destruct (lookup_node m src) as [[|c]|]; [done| |done].
  generalize (if is_dir m dst then dst ++ [basename src] else dst). intros d.
  case_decide; [done|].
  destruct (path_snoc d) as [->|(q & n & ->)]; [done|].
  rewrite parent_snoc.
  destruct (is_dir m q) eqn:Hq; [|done].
  destruct (is_dir m (q ++ [n])) eqn:Hn; [done|]. simpl. intros [= <-].
  apply wf_insert; [done|by apply is_dir_Some|by right].
Qed.

Lemma copy_variants_wf (src imgdir : path) (b e : string) (scs : list string)
    (imgs : list json) (m : fs) :
  wf m → wf (copy_variants faulty src imgdir b e scs imgs m).2.
Proof.
  revert imgs m. induction scs as [|sc scs IH]; intros imgs m Hwf; [done|].
  cbn [copy_variants].
  set (v := variant_name b e sc).
  destruct (path_exists m (src ++ [v])).
  - destruct (copy2 faulty (src ++ [v]) (imgdir ++ [v]) m) as [m'|] eqn:Hc.
    + apply IH. by eapply copy2_wf.
    + by apply IH.
  - by apply IH.
Qed.

Lemma create_imageset_wf (src dst : path) (b e : string) (scs : list string)
    (m : fs) :
  wf m → wf (create_imageset faulty src dst b e scs m).2.
Proof.
  intros Hwf. unfold create_imageset.
  destruct (makedirs faulty _ m) as [m1|] eqn:Hmk; [|done].
  assert (wf m1) as Hwf1.
  { unfold makedirs in Hmk. destruct (faulty _); [done|]. by eapply makedirs_from_wf. }
  pose proof (copy_variants_wf src (dst ++ [b +:+ ".imageset"]) b e scs [] m1 Hwf1)
    as Hwf2.
  destruct (copy_variants _ _ _ _ _ _ _ m1) as [imgs m2]. simpl in Hwf2.
  destruct (write_json faulty _ _ m2) as [m3|] eqn:Hw; [|done].
  simpl. by eapply write_json_wf.
Qed.

Lemma process_wf (src dst : path) (groups : list (string * string)) (ok : bool)
    (m : fs) :
  wf m → wf (process faulty src dst groups ok m).2.
Proof.
  revert ok m. induction groups as [|[b e] groups IH]; intros ok m Hwf; [done|].
  rewrite process_cons. apply IH. by apply create_imageset_wf.
Qed.

Lemma rebuild_wf (src dst : path) (m : fs) :
  wf m → wf (rebuild faulty src dst m).2.
Proof.
  intros Hwf. unfold rebuild.
  destruct (makedirs faulty dst m) as [m1|] eqn:Hmk; [|done].
  assert (wf m1) as Hwf1.
  { unfold makedirs in Hmk. destruct (faulty _); [done|]. by eapply makedirs_from_wf. }
  destruct (write_json faulty _ _ m1) as [m2|] eqn:Hw; [|done].
  assert (wf m2) as Hwf2 by (by eapply write_json_wf).
  destruct (listdir faulty src m2); [|done]. by apply process_wf.
Qed.

End KeepsWf.

(** X17: whatever fails, [migrate_assets] leaves a well-formed tree when it
    starts from one: every entry it leaves lies in a directory. *)
Theorem migrate_assets_keeps_wf (faulty : syscall → bool) (root src dst : path)
    (m : fs) :
  wf m → wf (migrate_assets faulty root src dst m).2.
Proof.
  intros Hwf. unfold migrate_assets.
  destruct (negb (path_exists m src)); [done|].
  destruct (negb (is_dir m src)); [done|].
  destruct (safe_rmtree_cases faulty dst (get_project_root root ++ ["Sources"]) m)
    as [->|[[_ ->]|(_ & _ & ->)]]; [done|by apply rebuild_wf|].
  by apply rebuild_wf, wf_outside.
Qed.

Lemma migrate_assets_keeps_wf_witness :
  lookup_node
    (migrate_assets copies_fail sample_root sample_source sample_dest
       (sample_tree [("a.png", File (Blob "A"))])).2
    (imageset_dir sample_dest "a") = Some Dir.
Proof.
  assert (wf (sample_tree [("a.png", File (Blob "A"))])) as Hwf.
  { apply wf_check. apply (bool_decide_unpack _). vm_compute. exact I. }
  apply (migrate_assets_keeps_wf copies_fail sample_root sample_source sample_dest
           (sample_tree [("a.png", File (Blob "A"))]) Hwf
           (imageset_dir sample_dest "a") "Contents.json").
  apply (bool_decide_unpack _). vm_compute. exact I.
Defined.
